(** * sync-meets: a shallow embedding of [scripts/sync-meets.js]

    The script fetches the meet listing of USA Weightlifting, normalises the
    address and the date range of every listing and inserts the meets that the
    Supabase table does not hold yet.  This file embeds its functions and
    proves the properties the description of the program states about them.

    Conventions of the embedding.
    - A JavaScript string is its sequence of UTF-16 code units ([jsstring]);
      [js] turns a literal of this file into such a sequence.
    - A JavaScript value that the script only passes around is a [jsval].
    - [console], the HTTP client, the timers and the store are effects on an
      explicit [World]; every effect leaves an [event] in the world's trace. *)

From Stdlib Require Import ZArith NArith Ascii String.
From stdpp Require Import gmap list.

Local Open Scope N_scope.

(** ** Text *)

Definition jsstring := list N.

Definition code (a : ascii) : N := N_of_ascii a.

Definition js (s : string) : jsstring := map code (list_ascii_of_string s).

Module Text.

(** [s.startsWith(p)] *)
Fixpoint starts_with (p s : jsstring) : bool :=
  match p, s with
  | [], _ => true
  | _ :: _, [] => false
  | a :: p', b :: s' => (a =? b) && starts_with p' s'
  end.

(** [s.split(sep)] for a separator that is not empty: [part] is the text of
    the part being read, [skip] counts the code units of a separator that
    are still to be passed over. *)
Fixpoint split_from (sep : jsstring) (skip : nat) (part s : jsstring)
  : list jsstring :=
  match s with
  | [] => [part]
  | c :: s' =>
      match skip with
      | S k => split_from sep k part s'
      | O =>
          if starts_with sep s
          then part :: split_from sep (length sep - 1) [] s'
          else split_from sep 0 (part ++ [c]) s'
      end
  end.

Definition split (sep s : jsstring) : list jsstring := split_from sep 0 [] s.

(** [s.includes(p)] *)
Fixpoint contains (p s : jsstring) : bool :=
  starts_with p s ||
  match s with
  | [] => false
  | _ :: s' => contains p s'
  end.

(** The class [\s] of a regular expression: the white space and the line
    terminators of ECMAScript. *)
Definition is_space (c : N) : bool :=
  ((9 <=? c) && (c <=? 13)) || (c =? 32) || (c =? 160) || (c =? 5760)
  || ((8192 <=? c) && (c <=? 8202)) || (c =? 8232) || (c =? 8233)
  || (c =? 8239) || (c =? 8287) || (c =? 12288) || (c =? 65279).

(** The class [\d]. *)
Definition is_digit (c : N) : bool := (48 <=? c) && (c <=? 57).

Fixpoint count_spaces (s : jsstring) : nat :=
  match s with
  | c :: s' => if is_space c then S (count_spaces s') else O
  | [] => O
  end.

(** Does [/,\s*,/] match at the start of [s]?  The greedy [\s*] never has to
    give a unit back: what it took is white space, not a comma. *)
Definition comma_run (s : jsstring) : bool :=
  match s with
  | c :: s' =>
      (c =? code ",") &&
      match drop (count_spaces s') s' with
      | d :: _ => d =? code ","
      | [] => false
      end
  | [] => false
  end.

(** Does [/,\s*,/] match somewhere in [s]? *)
Fixpoint has_comma_run (s : jsstring) : bool :=
  comma_run s ||
  match s with
  | [] => false
  | _ :: s' => has_comma_run s'
  end.

(** [s.replace(/,\s*,/g, ',')]: matches are found from left to right and do
    not overlap; [skip] counts the units of the current match still to be
    dropped. *)
Fixpoint collapse_from (skip : nat) (s : jsstring) : jsstring :=
  match s with
  | [] => []
  | c :: s' =>
      match skip with
      | S k => collapse_from k s'
      | O =>
          if comma_run s
          then code "," :: collapse_from (S (count_spaces s')) s'
          else c :: collapse_from 0 s'
      end
  end.

Definition collapse_commas (s : jsstring) : jsstring := collapse_from 0 s.

(** [s.replace(/\\\//g, '/')]: every backslash followed by a slash loses the
    backslash. *)
Fixpoint unescape_slashes (s : jsstring) : jsstring :=
  match s with
  | [] => []
  | c :: s' =>
      match s' with
      | d :: s'' =>
          if (c =? code "\") && (d =? code "/")
          then code "/" :: unescape_slashes s''
          else c :: unescape_slashes s'
      | [] => [c]
      end
  end.

(** Case folding of a regular expression with the flag [i] and without the
    flag [u]: a unit outside ASCII never folds onto an ASCII letter. *)
Definition fold_case (c : N) : N :=
  if (65 <=? c) && (c <=? 90) then c + 32 else c.

Fixpoint starts_with_ci (p s : jsstring) : bool :=
  match p, s with
  | [], _ => true
  | _ :: _, [] => false
  | a :: p', b :: s' => (fold_case a =? fold_case b) && starts_with_ci p' s'
  end.

(** Does [s] contain [p], letters compared without their case? *)
Fixpoint contains_ci (p s : jsstring) : bool :=
  starts_with_ci p s ||
  match s with
  | [] => false
  | _ :: s' => contains_ci p s'
  end.

(** [s.match(/^\d/)] is not [null]. *)
Definition starts_with_digit (s : jsstring) : bool :=
  match s with
  | c :: _ => is_digit c
  | [] => false
  end.

(** [s.match(/Suite|Unit|Apt|#/i)] is not [null]. *)
Definition has_unit_designator (s : jsstring) : bool :=
  contains_ci (js "Suite") s || contains_ci (js "Unit") s
  || contains_ci (js "Apt") s || contains_ci (js "#") s.

End Text.

(** ** Values and exceptions *)

(** The values the script handles.  [VMember k] is the member [k] that every
    object literal inherits from [Object.prototype] (a function, or an object
    for [__proto__]); numbers are only passed through. *)
Inductive jsval :=
| VUndefined
| VNull
| VBool (b : bool)
| VNum (n : Z)
| VStr (s : jsstring)
| VMember (k : jsstring).

#[global] Instance jsval_eq_dec : EqDecision jsval.
Proof. solve_decision. Defined.

(** [!!v] *)
Definition truthy (v : jsval) : bool :=
  match v with
  | VUndefined | VNull => false
  | VBool b => b
  | VNum n => negb (n =? 0)%Z
  | VStr s => negb (bool_decide (s = []))
  | VMember _ => true
  end.

(** [a || b] *)
Definition js_or (a b : jsval) : jsval := if truthy a then a else b.

(** An element of an array of strings: [None] is [undefined], the value of an
    index out of range ([parts !! i]). *)
Definition val_of (p : option jsstring) : jsval :=
  match p with
  | Some s => VStr s
  | None => VUndefined
  end.

(** The text of such an element inside a template literal or under [+]. *)
Definition text_of (p : option jsstring) : jsstring :=
  match p with
  | Some s => s
  | None => js "undefined"
  end.

Inductive exn :=
| TypeError
| SyntaxError
| NetworkError (message : jsstring)
| StatusError (status : Z)
| ApiError (status : Z).

Inductive res (A : Type) :=
| Ok (a : A)
| Throw (e : exn).
Arguments Ok {A} a.
Arguments Throw {A} e.

(** The error object of a failed store request. *)
Inductive dberror :=
| StoreFault (message : jsstring)
| UniqueViolation.

(** What the script writes on the console: one constructor for each call of
    [console.log] and [console.error], with the values it interpolates. *)
Inductive logline :=
| ErrCouldNotParseAddress (address : jsstring)
| ErrParsingAddress (address : jsval) (error : exn)
| ErrParsingDateRange (dateRange : jsval) (error : exn)
| LogFetching
| ErrParsingJson
| ErrFetching (error : exn)
| ErrCheckingExists (error : dberror)
| LogIsNew (name external_id : jsval)
| LogRetry (retries maxRetries delay : Z)
| LogNoMeets
| LogFetched (n : nat)
| LogProcessed (n : nat)
| LogExists (name : jsval)
| ErrInserting (name : jsval) (error : dberror)
| LogInserted (name : jsval)
| LogSyncCompleted (processed inserted skipped : nat)
| ErrInSyncMeets (error : exn).

(** ** parseAddress *)

Record ParsedAddress := {
  venueName : jsval;
  street : jsval;
  city : jsval;
  state : jsval;
  zip : jsval
}.

(** The record both failure paths of [parseAddress] return. *)
Definition degraded (address : jsval) : ParsedAddress :=
  {| venueName := VStr [];
     street := address;
     city := VStr (js "Unknown");
     state := VStr (js "Unknown");
     zip := VStr (js "Unknown") |}.

(** [parts.findIndex(p)], [-1] when no element satisfies [p]. *)
Fixpoint findIndex {A} (p : A -> bool) (l : list A) : Z :=
  match l with
  | [] => (-1)%Z
  | x :: l' =>
      if p x then 0%Z
      else let i := findIndex p l' in if (i <? 0)%Z then (-1)%Z else (i + 1)%Z
  end.

Definition is_country (part : jsstring) : bool :=
  bool_decide (part = js "United States of America").

(** The branch [parts.length >= 4].  [.match] on [undefined] raises. *)
Definition parseParts (parts : list jsstring) : res ParsedAddress :=
  let zip := parts !! (length parts - 1)%nat in
  let stateIndex := findIndex is_country parts in
  let state :=
    if (0 <? stateIndex)%Z
    then parts !! Z.to_nat (stateIndex - 1)
    else parts !! (length parts - 2)%nat in
  let result venueName street city :=
    Ok {| venueName := val_of venueName; street := val_of street;
          city := val_of city; state := val_of state; zip := val_of zip |} in
  match parts !! 0%nat with
  | None => Throw TypeError
  | Some p0 =>
      if negb (Text.starts_with_digit p0) then
        let venueName := Some p0 in
        if (6 <=? length parts)%nat then
          let street := parts !! 1%nat in
          match parts !! 2%nat with
          | None => Throw TypeError
          | Some p2 =>
              if Text.has_unit_designator p2
              then result venueName
                     (Some (text_of street ++ js ", " ++ p2))
                     (parts !! 3%nat)
              else result venueName street (parts !! 2%nat)
          end
        else result venueName (parts !! 1%nat) (parts !! 2%nat)
      else result (Some []) (parts !! 0%nat) (parts !! 1%nat)
  end.

(** [parseAddress(address)]: the diagnostics it writes and the record it
    returns.  [address.replace] raises on a value that is not a string; the
    parameter is reassigned to the collapsed text before it is split, so that
    is the text both the diagnostic and the degraded record carry. *)
Definition parseAddress (address : jsval) : list logline * ParsedAddress :=
  match address with
  | VStr original =>
      let address := Text.collapse_commas original in
      let parts := Text.split (js ", ") address in
      if (4 <=? length parts)%nat then
        match parseParts parts with
        | Ok r => ([], r)
        | Throw e => ([ErrParsingAddress (VStr address) e], degraded (VStr address))
        end
      else ([ErrCouldNotParseAddress address], degraded (VStr address))
  | _ => ([ErrParsingAddress address TypeError], degraded address)
  end.

(** ** parseDateRange *)

Record ParsedDateRange := {
  startDate : jsval;
  endDate : jsval
}.

(** The template [`${p[2]}-${p[0]}-${p[1]}`]. *)
Definition iso_of_parts (p : list jsstring) : jsstring :=
  text_of (p !! 2%nat) ++ js "-" ++ text_of (p !! 0%nat) ++ js "-"
  ++ text_of (p !! 1%nat).

Definition parseDateRange (dateRange : jsval) : list logline * ParsedDateRange :=
  match dateRange with
  | VStr s =>
      let cleanDateRange := Text.unescape_slashes s in
      let dates := Text.split (js " - ") cleanDateRange in
      match dates !! 0%nat with
      | None =>
          ([ErrParsingDateRange dateRange TypeError],
           {| startDate := VNull; endDate := VNull |})
      | Some d0 =>
          let startParts := Text.split (js "/") d0 in
          let endParts :=
            if truthy (val_of (dates !! 1%nat))
            then match dates !! 1%nat with
                 | Some d1 => Text.split (js "/") d1
                 | None => startParts
                 end
            else startParts in
          ([], {| startDate := VStr (iso_of_parts startParts);
                  endDate := VStr (iso_of_parts endParts) |})
      end
  | _ =>
      ([ErrParsingDateRange dateRange TypeError],
       {| startDate := VNull; endDate := VNull |})
  end.

(** ** The two tables *)

(** The names every object literal inherits from [Object.prototype] (Node 20).
    Each of them is bound to a function, [__proto__] to the prototype object:
    all are truthy. *)
Definition object_prototype : list jsstring :=
  [js "constructor"; js "__defineGetter__"; js "__defineSetter__";
   js "hasOwnProperty"; js "__lookupGetter__"; js "__lookupSetter__";
   js "isPrototypeOf"; js "propertyIsEnumerable"; js "toString";
   js "valueOf"; js "__proto__"; js "toLocaleString"].

(** [table[key]] for an object literal [table] whose own properties are
    strings.  A key that is not a string is first converted to text
    ([undefined], [null], [true], digits, the source of a function): that text
    is no key of the two tables below and no inherited name. *)
Definition get_property (table : gmap jsstring jsstring) (key : jsval) : jsval :=
  match key with
  | VStr k =>
      match table !! k with
      | Some v => VStr v
      | None => if bool_decide (k ∈ object_prototype) then VMember k else VUndefined
      end
  | _ => VUndefined
  end.

Definition timeZoneMap_entries : list (jsstring * jsstring) :=
  [
    (js "Alabama", js "America/Chicago");
    (js "Alaska", js "America/Anchorage");
    (js "Arizona", js "America/Phoenix");
    (js "Arkansas", js "America/Chicago");
    (js "California", js "America/Los_Angeles");
    (js "Colorado", js "America/Denver");
    (js "Connecticut", js "America/New_York");
    (js "Delaware", js "America/New_York");
    (js "Florida", js "America/New_York");
    (js "Georgia", js "America/New_York");
    (js "Hawaii", js "Pacific/Honolulu");
    (js "Idaho", js "America/Denver");
    (js "Illinois", js "America/Chicago");
    (js "Indiana", js "America/New_York");
    (js "Iowa", js "America/Chicago");
    (js "Kansas", js "America/Chicago");
    (js "Kentucky", js "America/New_York");
    (js "Louisiana", js "America/Chicago");
    (js "Maine", js "America/New_York");
    (js "Maryland", js "America/New_York");
    (js "Massachusetts", js "America/New_York");
    (js "Michigan", js "America/New_York");
    (js "Minnesota", js "America/Chicago");
    (js "Mississippi", js "America/Chicago");
    (js "Missouri", js "America/Chicago");
    (js "Montana", js "America/Denver");
    (js "Nebraska", js "America/Chicago");
    (js "Nevada", js "America/Los_Angeles");
    (js "New Hampshire", js "America/New_York");
    (js "New Jersey", js "America/New_York");
    (js "New Mexico", js "America/Denver");
    (js "New York", js "America/New_York");
    (js "North Carolina", js "America/New_York");
    (js "North Dakota", js "America/Chicago");
    (js "Ohio", js "America/New_York");
    (js "Oklahoma", js "America/Chicago");
    (js "Oregon", js "America/Los_Angeles");
    (js "Pennsylvania", js "America/New_York");
    (js "Rhode Island", js "America/New_York");
    (js "South Carolina", js "America/New_York");
    (js "South Dakota", js "America/Chicago");
    (js "Tennessee", js "America/Chicago");
    (js "Texas", js "America/Chicago");
    (js "Utah", js "America/Denver");
    (js "Vermont", js "America/New_York");
    (js "Virginia", js "America/New_York");
    (js "Washington", js "America/Los_Angeles");
    (js "West Virginia", js "America/New_York");
    (js "Wisconsin", js "America/Chicago");
    (js "Wyoming", js "America/Denver");
    (js "District of Columbia", js "America/New_York")
  ].

Definition timeZoneMap : gmap jsstring jsstring := list_to_map timeZoneMap_entries.

(** [mapTimeZone(state)] *)
Definition mapTimeZone (state : jsval) : jsval :=
  js_or (get_property timeZoneMap state) (VStr (js "America/New_York")).

Definition stateMap_entries : list (jsstring * jsstring) :=
  [
    (js "Alabama", js "AL");
    (js "Alaska", js "AK");
    (js "Arizona", js "AZ");
    (js "Arkansas", js "AR");
    (js "California", js "CA");
    (js "Colorado", js "CO");
    (js "Connecticut", js "CT");
    (js "Delaware", js "DE");
    (js "Florida", js "FL");
    (js "Georgia", js "GA");
    (js "Hawaii", js "HI");
    (js "Idaho", js "ID");
    (js "Illinois", js "IL");
    (js "Indiana", js "IN");
    (js "Iowa", js "IA");
    (js "Kansas", js "KS");
    (js "Kentucky", js "KY");
    (js "Louisiana", js "LA");
    (js "Maine", js "ME");
    (js "Maryland", js "MD");
    (js "Massachusetts", js "MA");
    (js "Michigan", js "MI");
    (js "Minnesota", js "MN");
    (js "Mississippi", js "MS");
    (js "Missouri", js "MO");
    (js "Montana", js "MT");
    (js "Nebraska", js "NE");
    (js "Nevada", js "NV");
    (js "New Hampshire", js "NH");
    (js "New Jersey", js "NJ");
    (js "New Mexico", js "NM");
    (js "New York", js "NY");
    (js "North Carolina", js "NC");
    (js "North Dakota", js "ND");
    (js "Ohio", js "OH");
    (js "Oklahoma", js "OK");
    (js "Oregon", js "OR");
    (js "Pennsylvania", js "PA");
    (js "Rhode Island", js "RI");
    (js "South Carolina", js "SC");
    (js "South Dakota", js "SD");
    (js "Tennessee", js "TN");
    (js "Texas", js "TX");
    (js "Utah", js "UT");
    (js "Vermont", js "VT");
    (js "Virginia", js "VA");
    (js "Washington", js "WA");
    (js "West Virginia", js "WV");
    (js "Wisconsin", js "WI");
    (js "Wyoming", js "WY");
    (js "District of Columbia", js "DC")
  ].

Definition stateMap : gmap jsstring jsstring := list_to_map stateMap_entries.

(** [getStateAbbreviation(stateName)] *)
Definition getStateAbbreviation (stateName : jsval) : jsval :=
  js_or (get_property stateMap stateName) stateName.

(** ** transformMeetsData *)

(** One element of the [data] array of the listing service, with the four
    properties the script reads; a property the element lacks is
    [VUndefined]. *)
Record RawListing := {
  meet_id : jsval;
  meet_name : jsval;
  meet_address : jsval;
  meet_subtitle : jsval
}.

(** The object [transformMeetsData] builds for a listing. *)
Record Meet := {
  name : jsval;
  venue_name : jsval;
  venue_street : jsval;
  venue_city : jsval;
  venue_state : jsval;
  venue_zip : jsval;
  time_zone : jsval;
  start_date : jsval;
  end_date : jsval;
  status : jsval;
  external_id : jsval
}.

Definition transformMeet (meet : RawListing) : list logline * Meet :=
  let '(diag1, a) := parseAddress (meet_address meet) in
  let '(diag2, d) := parseDateRange (meet_subtitle meet) in
  let timeZone := mapTimeZone (state a) in
  let stateAbbreviation := getStateAbbreviation (state a) in
  let finalVenueName := js_or (venueName a) (meet_name meet) in
  (diag1 ++ diag2,
   {| name := meet_name meet;
      venue_name := finalVenueName;
      venue_street := street a;
      venue_city := city a;
      venue_state := stateAbbreviation;
      venue_zip := zip a;
      time_zone := timeZone;
      start_date := startDate d;
      end_date := endDate d;
      status := VStr (js "upcoming");
      external_id := meet_id meet |}).

(** [start_date && end_date] as the condition of [filter]. *)
Definition has_dates (meet : Meet) : bool :=
  truthy (start_date meet) && truthy (end_date meet).

Definition transformMeetsData (meetsData : list RawListing)
  : list logline * list Meet :=
  let transformed := map transformMeet meetsData in
  (concat (map fst transformed), List.filter has_dates (map snd transformed)).

(** ** The world outside the script *)

(** The object submitted to the store: a [Meet] without [external_id]. *)
Record MeetData := {
  row_name : jsval;
  row_venue_name : jsval;
  row_venue_street : jsval;
  row_venue_city : jsval;
  row_venue_state : jsval;
  row_venue_zip : jsval;
  row_time_zone : jsval;
  row_start_date : jsval;
  row_end_date : jsval;
  row_status : jsval
}.

(** The value of the property [data] of the decoded document: the array of
    listings, or [undefined] when the document has no such property. *)
Inductive payload :=
| PMissing
| PArray (listings : list RawListing).

(** A decoded JSON document as far as the script inspects it: reading a
    property of [null] raises, reading [data] of anything else gives a
    [payload]. *)
Inductive document :=
| DNullish
| DObject (data : payload).

(** [response.data]: text that is still to be decoded, or a document. *)
Inductive body :=
| BText (text : jsstring)
| BDocument (d : document).

Record Response := {
  resp_status : Z;
  resp_data : body
}.

(** What the network does with one GET request. *)
Inductive http_outcome :=
| HttpFails (message : jsstring)
| HttpResponds (response : Response).

Inductive event :=
| Console (line : logline)
| Get
| Sleep (ms : Z)
| Select (name : jsval)
| Insert (row : MeetData)
| Exit (exit_code : Z).

(** The state of everything outside the script.
    - [trace]: the effects performed so far, the latest first.
    - [upstream]: what the listing service does with the next requests; once
      the list is used up the service does not answer.
    - [rows]: the table [meets] of the store, whose column [name] is unique.
    - [select_faults], [insert_faults]: for the next existence queries and the
      next inserts, the error the store answers with for reasons of its own
      (connectivity, a value the column type rejects), if any. *)
Record World := {
  trace : list event;
  upstream : list http_outcome;
  rows : list MeetData;
  select_faults : list (option dberror);
  insert_faults : list (option dberror)
}.

Definition emit (e : event) (w : World) : World :=
  {| trace := e :: trace w; upstream := upstream w; rows := rows w;
     select_faults := select_faults w; insert_faults := insert_faults w |}.

(** Computations of the script: they read and change the world and either
    return a value or raise. *)
Definition io (A : Type) : Type := World -> res A * World.

#[global] Instance io_ret : MRet io := fun A a w => (Ok a, w).

#[global] Instance io_bind : MBind io := fun A B f m w =>
  match m w with
  | (Ok a, w') => f a w'
  | (Throw e, w') => (Throw e, w')
  end.

Definition throw {A} (e : exn) : io A := fun w => (Throw e, w).

(** [try { body } catch (error) { handler }] *)
Definition try_catch {A} (body : io A) (handler : exn -> io A) : io A :=
  fun w =>
    match body w with
    | (Ok a, w') => (Ok a, w')
    | (Throw e, w') => handler e w'
    end.

Definition console (line : logline) : io unit := fun w => (Ok tt, emit (Console line) w).

(** [await new Promise(resolve => setTimeout(resolve, ms))] *)
Definition sleep (ms : Z) : io unit := fun w => (Ok tt, emit (Sleep ms) w).

Fixpoint console_all (lines : list logline) : io unit :=
  match lines with
  | [] => mret tt
  | line :: lines' => _ ← console line; console_all lines'
  end.

(** [axios.get(API_URL)]: the promise is rejected when the request fails and,
    with the default [validateStatus], when the status is outside 200..299. *)
Definition axios_get : io Response := fun w =>
  let w' :=
    emit Get
      {| trace := trace w; upstream := tail (upstream w); rows := rows w;
         select_faults := select_faults w; insert_faults := insert_faults w |} in
  match upstream w with
  | [] => (Throw (NetworkError (js "no response")), w')
  | HttpFails message :: _ => (Throw (NetworkError message), w')
  | HttpResponds response :: _ =>
      if (200 <=? resp_status response)%Z && (resp_status response <? 300)%Z
      then (Ok response, w')
      else (Throw (StatusError (resp_status response)), w')
  end.

(** [supabase.from('meets').select('id').eq('name', name).limit(1)]: the
    client does not raise, it returns [{ data, error }]. *)
Definition store_select (name : jsval) : io (dberror + list MeetData) := fun w =>
  let w' :=
    emit (Select name)
      {| trace := trace w; upstream := upstream w; rows := rows w;
         select_faults := tail (select_faults w);
         insert_faults := insert_faults w |} in
  match select_faults w with
  | Some error :: _ => (Ok (inl error), w')
  | _ =>
      (Ok (inr (take 1 (List.filter (fun r => bool_decide (row_name r = name))
                                    (rows w)))), w')
  end.

(** [supabase.from('meets').insert([row])]: [None] is [error: null]. *)
Definition store_insert (row : MeetData) : io (option dberror) := fun w =>
  let next rows :=
    emit (Insert row)
      {| trace := trace w; upstream := upstream w; rows := rows;
         select_faults := select_faults w;
         insert_faults := tail (insert_faults w) |} in
  match insert_faults w with
  | Some error :: _ => (Ok (Some error), next (rows w))
  | _ =>
      if existsb (fun r => bool_decide (row_name r = row_name row)) (rows w)
      then (Ok (Some UniqueViolation), next (rows w))
      else (Ok None, next (rows w ++ [row]))
  end.

(** ** retry *)

(** [Math.pow(2, retries) * 1000], in milliseconds.  The source computes it in
    doubles: the integer below is that double for [retries] up to 1014, and a
    timer of Node honours the delay as long as it is below 2^31 ms, that is
    for [retries] up to 21. *)
Definition backoff_delay (retries : Z) : Z := (2 ^ retries * 1000)%Z.

(** The loop of [retry].  [retries] grows with every turn that goes on, so
    [maxRetries - retries] turns are enough ([retry_loop_fuel] below): the
    branch for [fuel = 0] is never taken from [retry]. *)
Fixpoint retry_loop {A} (fuel : nat) (fn : io A) (maxRetries retries : Z)
  : io (option A) :=
  fun w =>
    if (retries <? maxRetries)%Z then
      match fuel with
      | O => (Ok None, w)
      | S fuel' =>
          match fn w with
          | (Ok a, w') => (Ok (Some a), w')
          | (Throw error, w') =>
              let retries := (retries + 1)%Z in
              if (maxRetries <=? retries)%Z then (Throw error, w')
              else
                let delay := backoff_delay retries in
                retry_loop fuel' fn maxRetries retries
                  (emit (Sleep delay)
                     (emit (Console (LogRetry retries maxRetries delay)) w'))
          end
      end
    else (Ok None, w).

(** [retry(fn, maxRetries)]; the result [None] is [undefined], what the
    function returns when the loop ends without a [return]. *)
Definition retry {A} (fn : io A) (maxRetries : Z) : io (option A) :=
  retry_loop (Z.to_nat maxRetries) fn maxRetries 0.

Section Sync.

(** [JSON.parse], restricted to what the script reads of its result; [None]
    is a [SyntaxError]. *)
Variable JSON_parse : jsstring -> option document.

Definition document_data (d : document) : io payload :=
  match d with
  | DNullish => throw TypeError
  | DObject p => mret p
  end.

(** ** fetchMeets *)
Definition fetchMeets : io payload :=
  try_catch
    (_ ← console LogFetching;
     response ← axios_get;
     if negb (resp_status response =? 200)%Z
     then throw (ApiError (resp_status response))
     else
       match resp_data response with
       | BText text =>
           try_catch
             (match JSON_parse text with
              | None => throw SyntaxError
              | Some parsedData => document_data parsedData
              end)
             (fun parseError => _ ← console ErrParsingJson; mret (PArray []))
       | BDocument d => document_data d
       end)
    (fun error => _ ← console (ErrFetching error); mret (PArray [])).

(** ** meetExists *)
Definition meetExists (meet : Meet) : io bool :=
  answer ← store_select (name meet);
  match answer with
  | inl nameError => _ ← console (ErrCheckingExists nameError); mret false
  | inr nameData =>
      if (0 <? length nameData)%nat then mret true
      else _ ← console (LogIsNew (name meet) (external_id meet)); mret false
  end.

(** [const { external_id, ...meetData } = meet] *)
Definition without_external_id (meet : Meet) : MeetData :=
  {| row_name := name meet;
     row_venue_name := venue_name meet;
     row_venue_street := venue_street meet;
     row_venue_city := venue_city meet;
     row_venue_state := venue_state meet;
     row_venue_zip := venue_zip meet;
     row_time_zone := time_zone meet;
     row_start_date := start_date meet;
     row_end_date := end_date meet;
     row_status := status meet |}.

(** The loop [for (const meet of transformedMeets)] of [syncMeets], with its
    two counters. *)
Fixpoint syncLoop (meets : list Meet) (insertCount skippedCount : nat)
  : io (nat * nat) :=
  match meets with
  | [] => mret (insertCount, skippedCount)
  | meet :: rest =>
      exists_ ← meetExists meet;
      if exists_ : bool then
        _ ← console (LogExists (name meet));
        syncLoop rest insertCount (S skippedCount)
      else
        let meetData := without_external_id meet in
        error ← store_insert meetData;
        insertCount' ←
          match error with
          | Some e => _ ← console (ErrInserting (name meet) e); mret insertCount
          | None => _ ← console (LogInserted (name meet)); mret (S insertCount)
          end;
        _ ← sleep 500;
        syncLoop rest insertCount' skippedCount
  end.

(** How a run ends: [syncMeets] returns, or it calls [process.exit]. *)
Inductive completion :=
| Returned
| Exited (exit_code : Z).

Definition syncMeets_body : io unit :=
  meetsData ← retry fetchMeets 3;
  match meetsData with
  | None | Some PMissing | Some (PArray []) => console LogNoMeets
  | Some (PArray meetsData) =>
      _ ← console (LogFetched (length meetsData));
      let '(diag, transformedMeets) := transformMeetsData meetsData in
      _ ← console_all diag;
      _ ← console (LogProcessed (length transformedMeets));
      counts ← syncLoop transformedMeets 0 0;
      console (LogSyncCompleted (length transformedMeets) counts.1 counts.2)
  end.

(** ** syncMeets *)
Definition syncMeets (w : World) : completion * World :=
  match syncMeets_body w with
  | (Ok _, w') => (Returned, w')
  | (Throw error, w') =>
      (Exited 1, emit (Exit 1) (emit (Console (ErrInSyncMeets error)) w'))
  end.

End Sync.

(** ** Observations on worlds and sample data *)

(** The world in which [retry] makes its next attempt after [retries]
    failures: it has announced the delay and slept. *)
Definition pause (retries maxRetries : Z) (w : World) : World :=
  emit (Sleep (backoff_delay retries))
    (emit (Console (LogRetry retries maxRetries (backoff_delay retries))) w).

(** The next request to the listing service fails: no answer, or an answer
    whose status is not 2xx. *)
Definition request_fails (w : World) : Prop :=
  match upstream w with
  | [] | HttpFails _ :: _ => True
  | HttpResponds response :: _ =>
      ((200 <=? resp_status response)%Z && (resp_status response <? 300)%Z) = false
  end.

(** The error [axios.get] raises for the next request when it fails. *)
Definition request_error (w : World) : exn :=
  match upstream w with
  | [] => NetworkError (js "no response")
  | HttpFails message :: _ => NetworkError message
  | HttpResponds response :: _ => StatusError (resp_status response)
  end.

(** The world after the request has been sent. *)
Definition after_request (w : World) : World :=
  emit Get
    {| trace := trace w; upstream := tail (upstream w); rows := rows w;
       select_faults := select_faults w; insert_faults := insert_faults w |}.

(** The delays slept so far, in milliseconds, the latest first. *)
Definition sleeps (w : World) : list Z :=
  flat_map (fun e => match e with Sleep ms => [ms] | _ => [] end) (trace w).

Definition is_insert (e : event) : bool :=
  match e with
  | Insert _ => true
  | _ => false
  end.

(** The number of inserts submitted to the store so far. *)
Definition insert_attempts (w : World) : nat :=
  length (List.filter is_insert (trace w)).

(** Does the table hold a row with this name? *)
Definition name_present (name : jsval) (table : list MeetData) : bool :=
  existsb (fun r => bool_decide (row_name r = name)) table.

(** A list of faults that holds no fault. *)
Definition no_faults (faults : list (option dberror)) : Prop :=
  Forall (fun fault => fault = None) faults.

(** The answer of the listing service that carries the listings [l]. *)
Definition listing_response (l : list RawListing) : http_outcome :=
  HttpResponds {| resp_status := 200; resp_data := BDocument (DObject (PArray l)) |}.

Definition no_json : jsstring -> option document := fun _ => None.

Definition listing_pleasanton : RawListing :=
  {| meet_id := VNum 1;
     meet_name := VStr (js "Bay Area Open");
     meet_address :=
       VStr (js "7051 Commerce Circle, Pleasanton, California, United States of America, 94588");
     meet_subtitle := VStr (js "06/08/2025") |}.

Definition listing_without_state : RawListing :=
  {| meet_id := VNum 7;
     meet_name := VStr (js "Spring Open");
     meet_address := VStr (js ", United States of America, TBD, 00000");
     meet_subtitle := VStr (js "06/08/2025") |}.

(** A listing whose date is still to be announced. *)
Definition listing_without_date : RawListing :=
  {| meet_id := VNum 11;
     meet_name := VStr (js "Summer Open");
     meet_address :=
       VStr (js "7051 Commerce Circle, Pleasanton, California, United States of America, 94588");
     meet_subtitle := VStr (js "TBD") |}.

Definition empty_world : World :=
  {| trace := []; upstream := []; rows := []; select_faults := [];
     insert_faults := [] |}.

Definition with_upstream (outcomes : list http_outcome) (w : World) : World :=
  {| trace := trace w; upstream := outcomes; rows := rows w;
     select_faults := select_faults w; insert_faults := insert_faults w |}.

Definition with_faults (selects inserts : list (option dberror)) (w : World) : World :=
  {| trace := trace w; upstream := upstream w; rows := rows w;
     select_faults := selects; insert_faults := inserts |}.

(** The service is down for one request and answers the next ones. *)
Definition world_service_down_once : World :=
  with_upstream
    [HttpResponds {| resp_status := 503; resp_data := BText [] |};
     listing_response [listing_pleasanton];
     listing_response [listing_pleasanton]]
    empty_world.

(** Two requests fail, the third is answered. *)
Definition world_two_failures : World :=
  with_upstream
    [HttpFails (js "ECONNRESET"); HttpFails (js "ETIMEDOUT");
     listing_response [listing_pleasanton]]
    empty_world.

(** Three requests fail. *)
Definition world_three_failures : World :=
  with_upstream
    [HttpFails (js "ECONNRESET"); HttpFails (js "ETIMEDOUT");
     HttpFails (js "EAI_AGAIN")]
    empty_world.

(** The listing is served twice; the store rejects the first insert it
    receives for a reason of its own. *)
Definition world_insert_fails_once : World :=
  with_faults [] [Some (StoreFault (js "fetch failed"))]
    (with_upstream
       [listing_response [listing_pleasanton];
        listing_response [listing_pleasanton]]
       empty_world).

(** The listing is served twice; the first existence query fails. *)
Definition world_query_fails_once : World :=
  with_faults [Some (StoreFault (js "fetch failed"))] []
    (with_upstream
       [listing_response [listing_pleasanton; listing_pleasanton];
        listing_response [listing_pleasanton; listing_pleasanton]]
       empty_world).

(** [w'] differs from [w] by console lines, sleeps and queries only: the
    store, the pending outcomes and the number of inserts are the same. *)
Definition quiet_step (w w' : World) : Prop :=
  upstream w' = upstream w /\ rows w' = rows w
  /\ (no_faults (select_faults w) -> no_faults (select_faults w'))
  /\ insert_faults w' = insert_faults w
  /\ insert_attempts w' = insert_attempts w.

(** ** Texts put together from parts *)

(** [parts.join(sep)] *)
Fixpoint join (sep : jsstring) (parts : list jsstring) : jsstring :=
  match parts with
  | [] => []
  | [p] => p
  | p :: rest => p ++ sep ++ join sep rest
  end.

(** No unit of [s] is [c]. *)
Definition free_of (c : N) (s : jsstring) : bool :=
  forallb (fun d => negb (d =? c)) s.

(** A part of an address as the listing service writes it: it is not empty,
    it does not start with white space and it holds no comma. *)
Definition clean_part (p : jsstring) : bool :=
  match p with
  | [] => false
  | c :: _ => negb (Text.is_space c) && free_of (code ",") p
  end.

(** A component of a date: digits only. *)
Definition all_digits (s : jsstring) : bool := forallb Text.is_digit s.

Definition is_string (v : jsval) : bool :=
  match v with
  | VStr _ => true
  | _ => false
  end.

(** Every field of the record is a string. *)
Definition all_strings (r : ParsedAddress) : bool :=
  is_string (venueName r) && is_string (street r) && is_string (city r)
  && is_string (state r) && is_string (zip r).


(** The six zones of [timeZoneMap]. *)
Definition zones : list jsstring :=
  [js "America/New_York"; js "America/Chicago"; js "America/Denver";
   js "America/Los_Angeles"; js "America/Anchorage"; js "America/Phoenix";
   js "Pacific/Honolulu"].

(** A state the table of [mapTimeZone] does not know: any value that is not a
    string, and any string that is neither a key of the table nor a name every
    object inherits. *)
Definition unknown_to (table : gmap jsstring jsstring) (state : jsval) : Prop :=
  match state with
  | VStr k => table !! k = None /\ k ∉ object_prototype
  | _ => True
  end.

(** Is [c] an upper-case letter of ASCII? *)
Definition is_upper (c : N) : bool := (65 <=? c) && (c <=? 90).

(** The address has none of the supported shapes: it is no string, or it has
    fewer than four parts. *)
Definition unsupported_address (address : jsval) : Prop :=
  match address with
  | VStr s =>
      (length (Text.split (js ", ") (Text.collapse_commas s)) < 4)%nat
  | _ => True
  end.

(** What [parseAddress] leaves in the street of an unsupported address. *)
Definition degraded_street (address : jsval) : jsval :=
  match address with
  | VStr s => VStr (Text.collapse_commas s)
  | _ => address
  end.

(** The world in which [retry] makes its next attempt when the [k] attempts
    from [w] on, made after [retries] failures, all fail; [None] when one of
    them does not fail. *)
Fixpoint failures_from {A} (fn : io A) (maxRetries retries : Z) (k : nat)
    (w : World) : option World :=
  match k with
  | O => Some w
  | S k' =>
      match fn w with
      | (Throw _, w') =>
          failures_from fn maxRetries (retries + 1) k'
            (pause (retries + 1) maxRetries w')
      | (Ok _, _) => None
      end
  end.

(** The delays before the attempts [2], ..., [n], the latest first. *)
Definition backoff_delays (n : nat) : list Z :=
  rev (map (fun i => backoff_delay (Z.of_nat i)) (seq 1 (n - 1))).

Definition is_get (e : event) : bool :=
  match e with
  | Get => true
  | _ => false
  end.

(** The number of requests sent to the listing service so far. *)
Definition requests (w : World) : nat := length (List.filter is_get (trace w)).

Definition is_select (e : event) : bool :=
  match e with
  | Select _ => true
  | _ => false
  end.

(** The number of existence queries sent to the store so far. *)
Definition selects (w : World) : nat := length (List.filter is_select (trace w)).

(** The rows a healthy store receives from the loop of [syncMeets]: of every
    name the table does not hold yet, the first meet. *)
Fixpoint inserted_meets (table : list MeetData) (meets : list Meet)
  : list MeetData :=
  match meets with
  | [] => []
  | meet :: rest =>
      if name_present (name meet) table then inserted_meets table rest
      else
        without_external_id meet
        :: inserted_meets (table ++ [without_external_id meet]) rest
  end.

(** * Properties *)

(** ** Text *)

Example split_example :
  Text.split (js ", ") (js "a, b,c, ") = [js "a"; js "b,c"; []].
Proof. reflexivity. Qed.

Example collapse_example :
  Text.collapse_commas (js "a,, b,  ,c, d") = js "a, b,c, d".
Proof. reflexivity. Qed.

Example collapse_does_not_overlap :
  Text.collapse_commas (js "a, , , b") = js "a, , b".
Proof. reflexivity. Qed.

Section TextFacts.
Import Text.

(** [split] always returns a first part. *)

Lemma split_from_nonempty sep s : forall skip part,
  exists p ps, split_from sep skip part s = p :: ps.
Proof.
  induction s as [|c s IH]; intros skip part; simpl.
  - eauto.
  - destruct skip as [|k]; [|apply IH].
    destruct (starts_with sep (c :: s)); [eauto|apply IH].
Qed.

Lemma split_first sep s : exists p ps, split sep s = p :: ps.
Proof. apply split_from_nonempty. Qed.

(** A text without the separator is its own single part. *)
Lemma split_from_without_separator sep s : forall part,
  contains sep s = false -> split_from sep 0 part s = [part ++ s].
Proof.
  induction s as [|c s IH]; intros part H.
  - simpl. by rewrite app_nil_r.
  - simpl in H. apply orb_false_iff in H as [Hhead Htail].
    cbn [split_from]. rewrite Hhead, (IH _ Htail).
    by rewrite <- app_assoc.
Qed.

Lemma split_without_separator sep s :
  contains sep s = false -> split sep s = [s].
Proof. apply split_from_without_separator. Qed.

(** Removing the backslashes brings no new [" - "] about: a unit that moves
    next to another one is a slash. *)
Lemma unescape_cases s :
  s = []
  \/ (exists t, s = code "\" :: code "/" :: t
                /\ unescape_slashes s = code "/" :: unescape_slashes t)
  \/ (exists c t, s = c :: t /\ unescape_slashes s = c :: unescape_slashes t
                  /\ (c = code "\" -> head t <> Some (code "/"))).
Proof.
  destruct s as [|c [|d t]]; [by left| |].
  - right; right. exists c, []. by repeat split.
  - right. cbn [unescape_slashes].
    destruct (c =? code "\") eqn:Hc; [destruct (d =? code "/") eqn:Hd|]; simpl.
    + left. apply N.eqb_eq in Hc, Hd. subst. eauto.
    + right. exists c, (d :: t). repeat split. intros _ [= ->].
      by rewrite N.eqb_refl in Hd.
    + right. exists c, (d :: t). repeat split. intros ->.
      by rewrite N.eqb_refl in Hc.
Qed.

Lemma unescape_head c rest s :
  c <> code "/" -> unescape_slashes s = c :: rest ->
  exists t, s = c :: t /\ unescape_slashes t = rest.
Proof.
  intros Hc H. destruct (unescape_cases s) as [->|[(t & -> & E)|(d & t & -> & E & _)]].
  - discriminate.
  - rewrite E in H. congruence.
  - rewrite E in H. injection H as -> <-. eauto.
Qed.

Lemma starts_with_cons a p s :
  starts_with (a :: p) s = true <-> exists t, s = a :: t /\ starts_with p t = true.
Proof.
  destruct s as [|b t]; simpl.
  - split; [done|]. by intros (? & ? & _).
  - rewrite andb_true_iff, N.eqb_eq. split.
    + intros [-> ?]. eauto.
    + intros (? & [= -> ->] & ?). done.
Qed.

Lemma unescape_starts_with_dash s :
  starts_with (js " - ") (unescape_slashes s) = true ->
  starts_with (js " - ") s = true.
Proof.
  change (js " - ") with [32; 45; 32].
  intros H.
  apply starts_with_cons in H as (r1 & E1 & H).
  apply starts_with_cons in H as (r2 & -> & H).
  apply starts_with_cons in H as (r3 & -> & _).
  apply unescape_head in E1 as (t1 & -> & E2); [|done].
  apply unescape_head in E2 as (t2 & -> & E3); [|done].
  apply unescape_head in E3 as (t3 & -> & _); [|done].
  reflexivity.
Qed.

Lemma contains_tail p c s : contains p s = true -> contains p (c :: s) = true.
Proof. intros H. simpl. rewrite H. apply orb_true_r. Qed.

Lemma unescape_contains_dash s :
  contains (js " - ") (unescape_slashes s) = true ->
  contains (js " - ") s = true.
Proof.
  remember (length s) as n eqn:Hn. revert s Hn.
  induction n as [n IH] using lt_wf_ind. intros s Hn.
  destruct (unescape_cases s) as [->|[(t & -> & E)|(c & t & -> & E & _)]].
  - done.
  - rewrite E. intros H. simpl in H.
    do 2 apply contains_tail. apply (IH (length t)); [simpl in Hn; lia|done|done].
  - rewrite E. intros H.
    change (contains (js " - ") (c :: unescape_slashes t))
      with (starts_with (js " - ") (c :: unescape_slashes t)
            || contains (js " - ") (unescape_slashes t)) in H.
    apply orb_true_iff in H as [H|H].
    + rewrite <- E in H. apply unescape_starts_with_dash in H.
      change (contains (js " - ") (c :: t))
        with (starts_with (js " - ") (c :: t) || contains (js " - ") t).
      by rewrite H.
    + apply contains_tail. apply (IH (length t)); [simpl in Hn; lia|done|done].
Qed.

Lemma unescape_keeps_no_dash s :
  contains (js " - ") s = false ->
  contains (js " - ") (unescape_slashes s) = false.
Proof.
  intros H. destruct (contains _ (unescape_slashes s)) eqn:E; [|done].
  apply unescape_contains_dash in E. congruence.
Qed.
End TextFacts.

(** ** parseAddress *)

Lemma collapse_from_without_run s :
  Text.has_comma_run s = false -> Text.collapse_from 0 s = s.
Proof.
  induction s as [|c s IH]; [done|].
  intros H. cbn [Text.has_comma_run] in H.
  apply orb_false_iff in H as [Hrun Hrest].
  cbn [Text.collapse_from]. rewrite Hrun. f_equal. by apply IH.
Qed.

(** With four parts or more, nothing in [parseParts] raises. *)
Lemma parseParts_ok parts :
  (4 <= length parts)%nat -> exists r, parseParts parts = Ok r.
Proof.
  destruct parts as [|p0 [|p1 [|p2 rest]]]; simpl; try lia. intros _.
  unfold parseParts. cbn [lookup list_lookup].
  destruct (negb _); [|eauto].
  destruct (6 <=? _)%nat; [|eauto].
  destruct (Text.has_unit_designator p2); eauto.
Qed.

(** Claim C3, as the code has it.  [parseAddress] returns a record for every
    string and never takes its [catch] path on one.  When the text, after the
    repeated commas are collapsed, splits into fewer than four parts, the
    record has an empty venue name, the city, state and zip ["Unknown"], and
    as its street the collapsed text: the parameter [address] was reassigned
    before the split.  The street is the original input when the input has no
    run of commas to collapse. *)
Theorem parseAddress_below_four_parts (s : jsstring) :
  let address := Text.collapse_commas s in
  let parts := Text.split (js ", ") address in
  ((length parts < 4)%nat ->
     parseAddress (VStr s)
     = ([ErrCouldNotParseAddress address],
        {| venueName := VStr []; street := VStr address;
           city := VStr (js "Unknown"); state := VStr (js "Unknown");
           zip := VStr (js "Unknown") |}))
  /\ ((4 <= length parts)%nat ->
        exists r, parseParts parts = Ok r /\ parseAddress (VStr s) = ([], r))
  /\ (Text.has_comma_run s = false -> address = s).
Proof.
  intros address parts. split; [|split].
  - intros H. unfold parseAddress. fold address parts.
    destruct (Nat.leb_spec 4 (length parts)); [lia|done].
  - intros H. destruct (parseParts_ok parts H) as [r Hr]. exists r. split; [done|].
    unfold parseAddress. fold address parts. rewrite Hr.
    destruct (Nat.leb_spec 4 (length parts)); [done|lia].
  - apply collapse_from_without_run.
Qed.

Lemma parseAddress_below_four_parts_witness :
  parseAddress (VStr (js "Pleasanton,, California"))
  = ([ErrCouldNotParseAddress (js "Pleasanton, California")],
     {| venueName := VStr []; street := VStr (js "Pleasanton, California");
        city := VStr (js "Unknown"); state := VStr (js "Unknown");
        zip := VStr (js "Unknown") |})
  /\ (exists r,
        parseParts (Text.split (js ", ") (js "1 Main St, Reno, Nevada, 89501")) = Ok r
        /\ parseAddress (VStr (js "1 Main St, Reno, Nevada, 89501")) = ([], r))
  /\ Text.collapse_commas (js "Pleasanton, California") = js "Pleasanton, California".
Proof.
  split; [|split].
  - apply (proj1 (parseAddress_below_four_parts (js "Pleasanton,, California"))).
    vm_compute. lia.
  - apply (proj1 (proj2 (parseAddress_below_four_parts
                           (js "1 Main St, Reno, Nevada, 89501")))).
    vm_compute. lia.
  - apply (proj2 (proj2 (parseAddress_below_four_parts
                           (js "Pleasanton, California")))).
    reflexivity.
Defined.

(** Claim C3 as stated fails: on the address of the comment in the source,
    which splits into two parts, the street is the collapsed text and not the
    original input. *)
Lemma parseAddress_street_is_collapsed_text :
  let s := js "8439 NE Columbia Ct,, Portland" in
  (length (Text.split (js ", ") (Text.collapse_commas s)) < 4)%nat
  /\ street (parseAddress (VStr s)).2 = VStr (js "8439 NE Columbia Ct, Portland")
  /\ street (parseAddress (VStr s)).2 <> VStr s.
Proof. split; [vm_compute; lia|]. split; [by vm_compute|]. by vm_compute. Qed.

(** Claim C4.  The two sample addresses: an address that starts with the
    street, and an address with a venue name and a suite. *)
Theorem parseAddress_examples :
  parseAddress
    (VStr (js "7051 Commerce Circle, Pleasanton, California, United States of America, 94588"))
  = ([], {| venueName := VStr [];
            street := VStr (js "7051 Commerce Circle");
            city := VStr (js "Pleasanton");
            state := VStr (js "California");
            zip := VStr (js "94588") |})
  /\ parseAddress
       (VStr (js "CrossFit Revamped, 9385 Washington Blvd., Suite B-C, Laurel, Maryland, United States of America, 20723"))
     = ([], {| venueName := VStr (js "CrossFit Revamped");
               street := VStr (js "9385 Washington Blvd., Suite B-C");
               city := VStr (js "Laurel");
               state := VStr (js "Maryland");
               zip := VStr (js "20723") |}).
Proof. split; by vm_compute. Qed.

(** ** parseDateRange *)

(** What [parseDateRange] returns for a string: nothing in it raises. *)
Lemma parseDateRange_of_string s :
  exists d0 rest,
    Text.split (js " - ") (Text.unescape_slashes s) = d0 :: rest
    /\ parseDateRange (VStr s)
       = ([], {| startDate := VStr (iso_of_parts (Text.split (js "/") d0));
                 endDate :=
                   VStr (iso_of_parts
                           match rest with
                           | d1 :: _ =>
                               if bool_decide (d1 = []) then Text.split (js "/") d0
                               else Text.split (js "/") d1
                           | [] => Text.split (js "/") d0
                           end) |}).
Proof.
  destruct (split_first (js " - ") (Text.unescape_slashes s)) as (d0 & rest & E).
  exists d0, rest. split; [done|].
  unfold parseDateRange. rewrite E. cbn [lookup list_lookup].
  destruct rest as [|d1 rest]; [done|]. cbn [lookup list_lookup val_of truthy].
  by destruct (bool_decide (d1 = [])).
Qed.

(** Claim C5.  The sample range with escaped slashes gives 2025-06-08 twice;
    and for every input without the separator [" - "] (a single date, well
    formed or not) the start date and the end date are the same text. *)
Theorem parseDateRange_example_and_single_date :
  parseDateRange (VStr (js "06\/08\/2025 - 06\/08\/2025"))
  = ([], {| startDate := VStr (js "2025-06-08"); endDate := VStr (js "2025-06-08") |})
  /\ forall s, Text.contains (js " - ") s = false ->
       let date := VStr (iso_of_parts (Text.split (js "/") (Text.unescape_slashes s))) in
       parseDateRange (VStr s) = ([], {| startDate := date; endDate := date |}).
Proof.
  split; [by vm_compute|].
  intros s H date.
  destruct (parseDateRange_of_string s) as (d0 & rest & E & ->).
  rewrite split_without_separator in E by by apply unescape_keeps_no_dash.
  by injection E as <- <-.
Qed.

Lemma parseDateRange_single_date_witness :
  parseDateRange (VStr (js "06/08/2025"))
  = ([], {| startDate := VStr (js "2025-06-08"); endDate := VStr (js "2025-06-08") |}).
Proof.
  apply (proj2 parseDateRange_example_and_single_date (js "06/08/2025")).
  reflexivity.
Defined.

(** Claim C2: the code departs from it.  Tokens with too few components or
    with components that are no numbers do not reach the [catch]: the dates
    are text put together from what is there, a missing component reading
    [undefined], and not [null].  Such a text is truthy, so the record passes
    the filter of [transformMeetsData], which is there to drop the meets with
    invalid dates. *)
Theorem parseDateRange_malformed_gives_text :
  parseDateRange (VStr (js "TBD"))
  = ([], {| startDate := VStr (js "undefined-TBD-undefined");
            endDate := VStr (js "undefined-TBD-undefined") |})
  /\ parseDateRange (VStr (js "06/2025 - 07/2025"))
     = ([], {| startDate := VStr (js "undefined-06-2025");
               endDate := VStr (js "undefined-07-2025") |})
  /\ parseDateRange (VStr (js "June/8th/2025"))
     = ([], {| startDate := VStr (js "2025-June-8th");
               endDate := VStr (js "2025-June-8th") |})
  /\ (parseDateRange (VStr (js "TBD"))).2 <> {| startDate := VNull; endDate := VNull |}
  /\ map start_date (transformMeetsData [listing_without_date]).2
     = [VStr (js "undefined-TBD-undefined")].
Proof. repeat split; by vm_compute. Qed.

(** The dates of a string are never empty: a listing whose subtitle is a
    string, whatever it holds, passes the filter of [transformMeetsData]. *)
Lemma string_subtitle_is_kept (meet : RawListing) (s : jsstring) :
  meet_subtitle meet = VStr s -> has_dates (transformMeet meet).2 = true.
Proof.
  intros H. unfold transformMeet. rewrite H.
  destruct (parseAddress _) as [diag a].
  destruct (parseDateRange_of_string s) as (d0 & rest & _ & ->).
  unfold has_dates, iso_of_parts. cbn [start_date end_date startDate endDate snd truthy].
  rewrite !bool_decide_eq_false_2; [done|..];
    intros E; apply app_eq_nil in E as [_ E]; discriminate.
Qed.

(** ** The state of a transformed meet *)

Lemma stateMap_codes k c : stateMap !! k = Some c -> length c = 2%nat.
Proof.
  intros H. apply elem_of_list_to_map_2 in H.
  assert (Forall (fun kv => length kv.2 = 2%nat) stateMap_entries) as Hall
    by (repeat constructor).
  rewrite Forall_forall in Hall. apply (Hall _ H).
Qed.

Lemma getStateAbbreviation_cases v :
  (exists k c, v = VStr k /\ stateMap !! k = Some c /\ length c = 2%nat
               /\ getStateAbbreviation v = VStr c)
  \/ (exists k, v = VStr k /\ k ∈ object_prototype
                /\ getStateAbbreviation v = VMember k)
  \/ getStateAbbreviation v = v.
Proof.
  unfold getStateAbbreviation, js_or, get_property.
  destruct v as [| | | |k|]; try (by right; right).
  destruct (stateMap !! k) as [c|] eqn:E.
  - left. exists k, c. pose proof (stateMap_codes _ _ E) as Hc.
    repeat split; try done.
    destruct c; [done|]. reflexivity.
  - case_bool_decide; [|by right; right].
    right; left. exists k. done.
Qed.

Lemma getStateAbbreviation_empty v :
  getStateAbbreviation v = VStr [] <-> v = VStr [].
Proof.
  split; [|by intros ->].
  destruct (getStateAbbreviation_cases v)
    as [(k & c & -> & _ & Hc & ->)|[(k & -> & _ & ->)| -> ]]; [|done..].
  intros [= ->]. done.
Qed.

Lemma transformMeet_venue_state meet :
  venue_state (transformMeet meet).2
  = getStateAbbreviation (state (parseAddress (meet_address meet)).2).
Proof.
  unfold transformMeet.
  destruct (parseAddress _) as [d1 a], (parseDateRange _) as [d2 d]. done.
Qed.

(** Claim C6 as stated fails: the part before ["United States of America"]
    may be empty, and the record, which has its dates, is kept. *)
Lemma venue_state_can_be_empty :
  state (parseAddress (meet_address listing_without_state)).2 = VStr []
  /\ map venue_state (transformMeetsData [listing_without_state]).2 = [VStr []].
Proof. split; by vm_compute. Qed.

(** ** retry *)

Section RetryFacts.
Context {A : Type}.
Implicit Types (fn : io A) (w : World).

(** The loop does not depend on its fuel once it has [maxRetries - retries]
    turns: [retry] never runs out of it. *)
Lemma retry_loop_fuel fn maxRetries : forall fuel retries w,
  (Z.to_nat (maxRetries - retries) <= fuel)%nat ->
  retry_loop fuel fn maxRetries retries w
  = retry_loop (Z.to_nat (maxRetries - retries)) fn maxRetries retries w.
Proof.
  induction fuel as [|fuel IH]; intros retries w Hfuel.
  - by replace (Z.to_nat (maxRetries - retries)) with 0%nat by lia.
  - destruct (Z.ltb_spec retries maxRetries) as [Hlt|Hge].
    + replace (Z.to_nat (maxRetries - retries))
        with (S (Z.to_nat (maxRetries - (retries + 1)))) by lia.
      cbn [retry_loop]. destruct (Z.ltb_spec retries maxRetries); [|lia].
      destruct (fn w) as [[a|e] w']; [done|].
      destruct (maxRetries <=? retries + 1)%Z; [done|].
      apply IH. lia.
    + destruct fuel, (Z.to_nat (maxRetries - retries)); cbn [retry_loop];
        destruct (Z.ltb_spec retries maxRetries); done || lia.
Qed.

Lemma retry_loop_step fn maxRetries retries fuel w :
  (retries < maxRetries)%Z ->
  retry_loop (S fuel) fn maxRetries retries w
  = match fn w with
    | (Ok a, w') => (Ok (Some a), w')
    | (Throw e, w') =>
        if (maxRetries <=? retries + 1)%Z then (Throw e, w')
        else retry_loop fuel fn maxRetries (retries + 1)
               (pause (retries + 1) maxRetries w')
    end.
Proof.
  intros H. cbn [retry_loop]. by destruct (Z.ltb_spec retries maxRetries); [|lia].
Qed.

Lemma retry_without_attempts_loop fn maxRetries retries fuel w :
  (maxRetries <= retries)%Z ->
  retry_loop fuel fn maxRetries retries w = (Ok None, w).
Proof.
  intros H. destruct fuel; cbn [retry_loop];
    by destruct (Z.ltb_spec retries maxRetries); [lia|].
Qed.

Lemma retry_always_failing fn maxRetries :
  (forall w, exists e w', fn w = (Throw e, w')) ->
  forall fuel retries w,
    (retries < maxRetries)%Z -> (Z.to_nat (maxRetries - retries) <= fuel)%nat ->
    exists w_last e w',
      fn w_last = (Throw e, w')
      /\ retry_loop fuel fn maxRetries retries w = (Throw e, w').
Proof.
  intros Hfn. induction fuel as [|fuel IH]; intros retries w Hlt Hfuel; [lia|].
  rewrite retry_loop_step by done.
  destruct (Hfn w) as (e & w' & E). rewrite E.
  destruct (Z.leb_spec maxRetries (retries + 1)).
  - eauto.
  - apply IH; lia.
Qed.

(** Any fuel from [maxRetries] on gives what [retry] gives. *)
Lemma retry_enough_fuel fn maxRetries fuel w :
  (Z.to_nat maxRetries <= fuel)%nat ->
  retry_loop fuel fn maxRetries 0 w = retry fn maxRetries w.
Proof.
  intros H. unfold retry.
  rewrite (retry_loop_fuel fn maxRetries fuel 0 w)
    by (by rewrite Z.sub_0_r).
  by rewrite Z.sub_0_r.
Qed.

End RetryFacts.

(** Claim C7.  With three attempts, an operation that fails twice is called a
    third time and [retry] returns what that call returns or raises what it
    raises; before the second call it sleeps 2^1 seconds and before the third
    2^2 seconds, twice as long, and these are all the delays of the call when
    the operation does not sleep itself.  For every positive number of
    attempts, an operation that always fails makes [retry] raise the error of
    its last call. *)
Theorem retry_third_attempt_and_exhaustion :
  (forall A (fn : io A) w0 w1 w2 w3 e1 e2 (outcome : res A),
      fn w0 = (Throw e1, w1) ->
      fn (emit (Sleep 2000) (emit (Console (LogRetry 1 3 2000)) w1)) = (Throw e2, w2) ->
      fn (emit (Sleep 4000) (emit (Console (LogRetry 2 3 4000)) w2)) = (outcome, w3) ->
      retry fn 3 w0
      = (match outcome with Ok a => Ok (Some a) | Throw e3 => Throw e3 end, w3)
      /\ ((forall w, sleeps (fn w).2 = sleeps w) ->
          sleeps (retry fn 3 w0).2 = 4000 :: 2000 :: sleeps w0)%Z)
  /\ (backoff_delay 1 = 2 ^ 1 * 1000 /\ backoff_delay 2 = 2 * backoff_delay 1)%Z
  /\ (forall A (fn : io A) maxRetries w0,
        (1 <= maxRetries)%Z ->
        (forall w, exists e w', fn w = (Throw e, w')) ->
        exists w_last e w',
          fn w_last = (Throw e, w') /\ retry fn maxRetries w0 = (Throw e, w')).
Proof.
  split; [|split; [done|]].
  - intros A fn w0 w1 w2 w3 e1 e2 outcome H1 H2 H3.
    assert (retry fn 3 w0
            = (match outcome with Ok a => Ok (Some a) | Throw e3 => Throw e3 end, w3))
      as Hretry; [|split; [done|]].
    2: { intros Hquiet. rewrite Hretry. cbn [snd].
         pose proof (Hquiet w0) as Q1. rewrite H1 in Q1.
         pose proof (Hquiet (emit (Sleep 2000) (emit (Console (LogRetry 1 3 2000)) w1)))
           as Q2. rewrite H2 in Q2.
         pose proof (Hquiet (emit (Sleep 4000) (emit (Console (LogRetry 2 3 4000)) w2)))
           as Q3. rewrite H3 in Q3.
         cbn [snd] in Q1, Q2, Q3. rewrite Q3.
         change (4000 :: sleeps w2 = 4000 :: 2000 :: sleeps w0)%Z.
         rewrite Q2.
         change (4000 :: 2000 :: sleeps w1 = 4000 :: 2000 :: sleeps w0)%Z.
         by rewrite Q1. }
    unfold retry. change (Z.to_nat 3) with 3%nat.
    rewrite retry_loop_step, H1 by done.
    change (retry_loop 2 fn 3 1
              (emit (Sleep 2000) (emit (Console (LogRetry 1 3 2000)) w1)) = 
            (match outcome with Ok a => Ok (Some a) | Throw e3 => Throw e3 end, w3)).
    rewrite retry_loop_step, H2 by done.
    change (retry_loop 1 fn 3 2
              (emit (Sleep 4000) (emit (Console (LogRetry 2 3 4000)) w2)) = 
            (match outcome with Ok a => Ok (Some a) | Throw e3 => Throw e3 end, w3)).
    rewrite retry_loop_step, H3 by done.
    by destruct outcome.
  - intros A fn maxRetries w0 Hmax Hfn.
    apply retry_always_failing; [done|lia|lia].
Qed.

Lemma retry_third_attempt_and_exhaustion_witness :
  (fst (retry axios_get 3 world_two_failures)
   = Ok (Some {| resp_status := 200;
                 resp_data := BDocument (DObject (PArray [listing_pleasanton])) |})
   /\ rev (trace (snd (retry axios_get 3 world_two_failures)))
      = [Get; Console (LogRetry 1 3 2000); Sleep 2000;
         Get; Console (LogRetry 2 3 4000); Sleep 4000; Get])
  /\ fst (retry axios_get 3 world_three_failures) = Throw (NetworkError (js "EAI_AGAIN"))
  /\ (exists w_last e w',
        throw (A := unit) TypeError w_last = (Throw e, w')
        /\ retry (throw (A := unit) TypeError) 5 empty_world = (Throw e, w')).
Proof.
  split; [|split].
  - rewrite (proj1 (proj1 retry_third_attempt_and_exhaustion _ axios_get
               world_two_failures _ _ _ _ _ _ eq_refl eq_refl eq_refl)).
    split; reflexivity.
  - rewrite (proj1 (proj1 retry_third_attempt_and_exhaustion _ axios_get
               world_three_failures _ _ _ _ _ _ eq_refl eq_refl eq_refl)).
    reflexivity.
  - apply (proj2 (proj2 retry_third_attempt_and_exhaustion) unit
             (throw TypeError) 5%Z empty_world); [lia|].
    intros w. by eexists _, _.
Defined.

(** Claim C10.  With a number of attempts that is not positive, [retry] does
    not call the operation: it returns [undefined] and leaves the world as it
    was, whatever the operation would have done. *)
Theorem retry_without_attempts {A} (fn : io A) (maxRetries : Z) (w : World) :
  (maxRetries <= 0)%Z -> retry fn maxRetries w = (Ok None, w).
Proof. intros H. by apply retry_without_attempts_loop. Qed.

Lemma retry_without_attempts_witness :
  retry axios_get 0 world_two_failures = (Ok None, world_two_failures)
  /\ retry axios_get (-2) world_two_failures = (Ok None, world_two_failures).
Proof.
  split.
  - apply (retry_without_attempts axios_get 0 world_two_failures). lia.
  - apply (retry_without_attempts axios_get (-2) world_two_failures). lia.
Defined.

(** ** fetchMeets and the loop of syncMeets *)

Lemma bind_ok {A B} (m : io A) (f : A -> io B) w a w' :
  m w = (Ok a, w') -> (m ≫= f) w = f a w'.
Proof. intros H. unfold mbind, io_bind. by rewrite H. Qed.

Lemma axios_get_fails w :
  request_fails w -> axios_get w = (Throw (request_error w), after_request w).
Proof.
  unfold request_fails, request_error, axios_get, after_request.
  destruct (upstream w) as [|[message|response] rest]; [done..|].
  by intros ->.
Qed.

Lemma fetchMeets_swallows JSON_parse w :
  request_fails w ->
  fetchMeets JSON_parse w
  = (Ok (PArray []),
     emit (Console (ErrFetching (request_error w)))
       (after_request (emit (Console LogFetching) w))).
Proof.
  intros H. unfold fetchMeets, try_catch, mbind, io_bind, console.
  by rewrite (axios_get_fails (emit (Console LogFetching) w)).
Qed.

(** [fetchMeets] catches whatever is raised inside it. *)
Lemma fetchMeets_never_raises JSON_parse w :
  exists data w', fetchMeets JSON_parse w = (Ok data, w').
Proof.
  unfold fetchMeets, try_catch, mbind, io_bind, console, document_data, throw, mret, io_ret.
  destruct (axios_get _) as [[response|e] w1]; [|eauto].
  destruct (negb _); [eauto|].
  destruct (resp_data response) as [text|[|data]]; [|eauto..].
  destruct (JSON_parse text) as [[|data]|]; eauto.
Qed.

Lemma retry_first_attempt {A} (fn : io A) maxRetries w a w' :
  (1 <= maxRetries)%Z -> fn w = (Ok a, w') ->
  retry fn maxRetries w = (Ok (Some a), w').
Proof.
  intros Hmax H. unfold retry.
  destruct (Z.to_nat maxRetries) as [|fuel] eqn:E; [lia|].
  rewrite retry_loop_step by lia. by rewrite H.
Qed.

(** Claim C1: the code departs from it.  The service is down for one request
    and would answer the next one.  [fetchMeets] catches the failure and
    returns an empty array, so [retry] has nothing to retry: the run sends one
    request, never sleeps, reports that there is no meets data and returns
    normally, with the answers of the service still pending.  The same
    [retry] around the bare request would have slept two seconds and got the
    listings at its second attempt. *)
Theorem failed_request_is_neither_retried_nor_fatal :
  fst (syncMeets no_json world_service_down_once) = Returned
  /\ rev (trace (snd (syncMeets no_json world_service_down_once)))
     = [Console LogFetching; Get; Console (ErrFetching (StatusError 503));
        Console LogNoMeets]
  /\ upstream (snd (syncMeets no_json world_service_down_once))
     = [listing_response [listing_pleasanton];
        listing_response [listing_pleasanton]]
  /\ fst (retry axios_get 3 world_service_down_once)
     = Ok (Some {| resp_status := 200;
                   resp_data := BDocument (DObject (PArray [listing_pleasanton])) |})
  /\ rev (trace (snd (retry axios_get 3 world_service_down_once)))
     = [Get; Console (LogRetry 1 3 2000); Sleep 2000; Get].
Proof. repeat split; by vm_compute. Qed.

Lemma console_all_returns lines : forall w,
  exists w', console_all lines w = (Ok tt, w').
Proof.
  induction lines as [|line lines IH]; intros w; [by eexists|].
  cbn [console_all]. unfold mbind, io_bind, console. apply IH.
Qed.

(** Nothing in the loop raises. *)
Lemma syncLoop_returns meets : forall insertCount skippedCount w,
  exists counts w', syncLoop meets insertCount skippedCount w = (Ok counts, w').
Proof.
  induction meets as [|meet rest IH]; intros i s w; [by eexists _, _|].
  cbn [syncLoop]. unfold meetExists, mbind, io_bind, store_select, console, sleep, mret, io_ret.
  destruct (select_faults w) as [|[e|] faults];
    [destruct (0 <? _)%nat; [apply IH|]| |destruct (0 <? _)%nat; [apply IH|]];
    unfold store_insert; cbn [insert_faults emit rows];
    (destruct (insert_faults w) as [|[e'|] ?]; [destruct (existsb _ _)| |destruct (existsb _ _)]);
    apply IH.
Qed.

(** With an answer whose elements are listing objects, nothing reaches the
    [catch] of [syncMeets]: the run returns. *)
Lemma syncMeets_returns JSON_parse w : (syncMeets JSON_parse w).1 = Returned.
Proof.
  unfold syncMeets, syncMeets_body.
  destruct (fetchMeets_never_raises JSON_parse w) as (data & w1 & Hfetch).
  erewrite bind_ok by (by apply retry_first_attempt).
  destruct data as [|[|x l]]; [done..|].
  destruct (transformMeetsData (x :: l)) as [diag meets].
  unfold mbind, io_bind, console.
  destruct (console_all_returns diag
              (emit (Console (LogFetched (length (x :: l)))) w1)) as (w2 & ->).
  by destruct (syncLoop_returns meets 0 0
                 (emit (Console (LogProcessed (length meets))) w2))
    as (counts & w3 & ->).
Qed.

(** Claim C9.  When the existence query for a meet fails, [meetExists] writes
    the error on the console and answers [false]; the loop then submits the
    meet without its [external_id], does not count it as skipped, sleeps and
    goes on with the meets that follow; the loop as a whole returns.  (A trace
    lists the latest effect first.) *)
Theorem failed_existence_query_still_inserts
    (meet : Meet) (rest : list Meet) (insertCount skippedCount : nat)
    (w : World) (error : dberror) (faults : list (option dberror)) :
  select_faults w = Some error :: faults ->
  (exists w1, meetExists meet w = (Ok false, w1)
              /\ trace w1 = [Console (ErrCheckingExists error); Select (name meet)]
                            ++ trace w)
  /\ (exists line insertCount' w',
        trace w' = [Sleep 500; Console line; Insert (without_external_id meet);
                    Console (ErrCheckingExists error); Select (name meet)]
                   ++ trace w
        /\ (insertCount' = insertCount \/ insertCount' = S insertCount)
        /\ syncLoop (meet :: rest) insertCount skippedCount w
           = syncLoop rest insertCount' skippedCount w')
  /\ (exists counts w'',
        syncLoop (meet :: rest) insertCount skippedCount w = (Ok counts, w'')).
Proof.
  intros H. split; [|split; [|apply syncLoop_returns]].
  - unfold meetExists, mbind, io_bind, store_select, console. rewrite H.
    eexists. split; reflexivity.
  - cbn [syncLoop].
    unfold meetExists, mbind, io_bind, store_select, console, sleep, mret, io_ret.
    rewrite H. unfold store_insert. cbn [insert_faults emit rows].
    destruct (insert_faults w) as [|[e'|] ?];
      [destruct (existsb _ _)| |destruct (existsb _ _)];
      eexists _, _, _; (split_and!; [ | |reflexivity]); [reflexivity|auto..].
Qed.

Lemma failed_existence_query_still_inserts_witness :
  let meet := (transformMeet listing_pleasanton).2 in
  let w := with_faults [Some (StoreFault (js "fetch failed"))] [] empty_world in
  exists line insertCount' w',
    trace w' = [Sleep 500; Console line; Insert (without_external_id meet);
                Console (ErrCheckingExists (StoreFault (js "fetch failed")));
                Select (name meet)]
    /\ (insertCount' = 0%nat \/ insertCount' = 1%nat)
    /\ syncLoop [meet] 0 0 w = syncLoop [] insertCount' 0 w'.
Proof.
  intros meet w.
  apply (failed_existence_query_still_inserts meet [] 0 0 w
           (StoreFault (js "fetch failed")) []).
  reflexivity.
Defined.

(** ** Two runs of syncMeets *)

Lemma select_found (f : MeetData -> bool) table :
  (0 <? length (take 1 (List.filter f table)))%nat = existsb f table.
Proof.
  induction table as [|r table IH]; [done|].
  simpl. destruct (f r); [done|]. apply IH.
Qed.

Lemma no_faults_tail faults : no_faults faults -> no_faults (tail faults).
Proof. intros H. destruct H; [constructor|done]. Qed.

Lemma no_faults_head faults :
  no_faults faults -> faults = [] \/ exists rest, faults = None :: rest.
Proof. intros [|? ? -> _]; eauto. Qed.

Lemma name_present_app name table row :
  name_present name (table ++ [row])
  = name_present name table || bool_decide (row_name row = name).
Proof. unfold name_present. rewrite existsb_app. simpl. by rewrite orb_false_r. Qed.

Lemma console_all_quiet lines : forall w,
  exists w', console_all lines w = (Ok tt, w') /\ quiet_step w w'.
Proof.
  induction lines as [|line lines IH]; intros w.
  - exists w. by repeat split.
  - cbn [console_all]. unfold mbind, io_bind, console.
    destruct (IH (emit (Console line) w)) as (w' & -> & Hq).
    exists w'. split; [done|]. exact Hq.
Qed.

Lemma syncLoop_cons meet rest insertCount skippedCount w :
  syncLoop (meet :: rest) insertCount skippedCount w
  = match meetExists meet w with
    | (Ok true, w1) =>
        syncLoop rest insertCount (S skippedCount)
          (emit (Console (LogExists (name meet))) w1)
    | (Ok false, w1) =>
        match store_insert (without_external_id meet) w1 with
        | (Ok (Some e), w2) =>
            syncLoop rest insertCount skippedCount
              (emit (Sleep 500) (emit (Console (ErrInserting (name meet) e)) w2))
        | (Ok None, w2) =>
            syncLoop rest (S insertCount) skippedCount
              (emit (Sleep 500) (emit (Console (LogInserted (name meet))) w2))
        | (Throw e, w2) => (Throw e, w2)
        end
    | (Throw e, w1) => (Throw e, w1)
    end.
Proof.
  cbn [syncLoop]. unfold mbind, io_bind.
  destruct (meetExists meet w) as [[[|]|] w1]; try done.
  by destruct (store_insert _ w1) as [[[|]|] w2].
Qed.

Lemma meetExists_spec meet w :
  exists found w1,
    meetExists meet w = (Ok found, w1)
    /\ upstream w1 = upstream w /\ rows w1 = rows w
    /\ insert_faults w1 = insert_faults w
    /\ select_faults w1 = tail (select_faults w)
    /\ insert_attempts w1 = insert_attempts w
    /\ (found = true -> name_present (name meet) (rows w) = true)
    /\ (no_faults (select_faults w) -> found = name_present (name meet) (rows w)).
Proof.
  unfold meetExists, mbind, io_bind, store_select, console, mret, io_ret.
  destruct (select_faults w) as [|[e|] faults] eqn:E.
  - rewrite select_found. fold (name_present (name meet) (rows w)).
    destruct (name_present _ _); eexists _, _; by repeat split.
  - eexists _, _. repeat split; try done. intros H. by inversion H.
  - rewrite select_found. fold (name_present (name meet) (rows w)).
    destruct (name_present _ _); eexists _, _; by repeat split.
Qed.

Lemma store_insert_spec row w :
  exists error w2,
    store_insert row w = (Ok error, w2)
    /\ upstream w2 = upstream w
    /\ select_faults w2 = select_faults w
    /\ insert_faults w2 = tail (insert_faults w)
    /\ (forall n, name_present n (rows w) = true -> name_present n (rows w2) = true)
    /\ (no_faults (insert_faults w) -> name_present (row_name row) (rows w2) = true).
Proof.
  unfold store_insert. fold (name_present (row_name row) (rows w)).
  destruct (insert_faults w) as [|[e|] faults] eqn:E;
    [| |]; try destruct (name_present (row_name row) (rows w)) eqn:Hpresent;
    eexists _, _; (split; [reflexivity|]); cbn [insert_faults upstream rows emit select_faults];
    repeat split; try done.
  all: try (intros n Hn; rewrite name_present_app, Hn; done).
  all: try (intros _; rewrite name_present_app;
            by rewrite bool_decide_eq_true_2, orb_true_r).
  intros H. by inversion H.
Qed.

Lemma syncLoop_step_first_run meet rest insertCount skippedCount w :
  no_faults (insert_faults w) ->
  exists insertCount' skippedCount' w1,
    syncLoop (meet :: rest) insertCount skippedCount w
    = syncLoop rest insertCount' skippedCount' w1
    /\ no_faults (insert_faults w1)
    /\ upstream w1 = upstream w
    /\ (forall n, name_present n (rows w) = true -> name_present n (rows w1) = true)
    /\ name_present (name meet) (rows w1) = true.
Proof.
  intros Hins. rewrite syncLoop_cons.
  destruct (meetExists_spec meet w)
    as (found & w1 & -> & Hup1 & Hrows1 & Hins1 & _ & _ & Hfound & _).
  destruct found.
  - eexists _, _, _. split; [reflexivity|].
    cbn [emit insert_faults upstream rows]. rewrite Hins1, Hup1, Hrows1.
    repeat split; auto.
  - destruct (store_insert_spec (without_external_id meet) w1)
      as (error & w2 & -> & Hup2 & _ & Hins2 & Hmono & Hpresent).
    rewrite Hins1 in Hins2, Hpresent. rewrite Hrows1 in Hmono.
    assert (no_faults (insert_faults w2)) as Hno
      by (rewrite Hins2; by apply no_faults_tail).
    destruct error; eexists _, _, _; (split; [reflexivity|]);
      cbn [emit insert_faults upstream rows]; repeat split; auto; congruence.
Qed.

Lemma syncLoop_first_run meets : forall insertCount skippedCount w,
  no_faults (insert_faults w) ->
  exists counts w',
    syncLoop meets insertCount skippedCount w = (Ok counts, w')
    /\ upstream w' = upstream w
    /\ (forall n, name_present n (rows w) = true -> name_present n (rows w') = true)
    /\ (forall m, m ∈ meets -> name_present (name m) (rows w') = true).
Proof.
  induction meets as [|meet rest IH]; intros i s w Hins.
  - eexists _, w. repeat split; try done. intros m Hm. by apply elem_of_nil in Hm.
  - destruct (syncLoop_step_first_run meet rest i s w Hins)
      as (i' & s' & w1 & -> & Hins1 & Hup1 & Hmono1 & Hmeet).
    destruct (IH i' s' w1 Hins1) as (counts & w' & -> & Hup & Hmono & Hall).
    exists counts, w'. split; [done|]. split; [congruence|]. split; [auto|].
    intros m Hm. apply elem_of_cons in Hm as [->|Hm]; auto.
Qed.

Lemma syncLoop_second_run meets : forall insertCount skippedCount w,
  no_faults (select_faults w) ->
  (forall m, m ∈ meets -> name_present (name m) (rows w) = true) ->
  exists w',
    syncLoop meets insertCount skippedCount w
    = (Ok (insertCount, (skippedCount + length meets)%nat), w')
    /\ quiet_step w w'.
Proof.
  induction meets as [|meet rest IH]; intros i s w Hsel Hall.
  - exists w. split; [|by repeat split].
    cbn [syncLoop length]. by rewrite Nat.add_0_r.
  - rewrite syncLoop_cons.
    destruct (meetExists_spec meet w)
      as (found & w1 & -> & Hup1 & Hrows1 & Hins1 & Hsel1 & Hatt1 & _ & Hfound).
    rewrite (Hfound Hsel), (Hall meet) by (apply elem_of_cons; by left).
    destruct (IH i (S s) (emit (Console (LogExists (name meet))) w1))
      as (w' & -> & Hup & Hrows & Hsel' & Hins & Hatt).
    + cbn [emit select_faults]. rewrite Hsel1. by apply no_faults_tail.
    + intros m Hm. cbn [emit rows]. rewrite Hrows1. apply Hall. apply elem_of_cons. by right.
    + exists w'. split.
      { replace (s + length (meet :: rest))%nat with (S s + length rest)%nat
          by (simpl; lia). done. }
      cbn [emit upstream rows select_faults insert_faults] in *.
      unfold quiet_step. rewrite Hup, Hrows, Hins, Hatt.
      repeat split; try done. intros _. apply Hsel'. rewrite Hsel1.
      by apply no_faults_tail.
Qed.

Lemma fetchMeets_listing JSON_parse l rest w :
  upstream w = listing_response l :: rest ->
  fetchMeets JSON_parse w
  = (Ok (PArray l), after_request (emit (Console LogFetching) w)).
Proof.
  intros H.
  unfold fetchMeets, try_catch, mbind, io_bind, console, axios_get, after_request.
  cbn [upstream emit]. rewrite H. reflexivity.
Qed.

Lemma syncMeets_of_listing JSON_parse l rest w :
  upstream w = listing_response l :: rest ->
  let w1 := after_request (emit (Console LogFetching) w) in
  syncMeets_body JSON_parse w
  = match l with
    | [] => console LogNoMeets w1
    | _ :: _ =>
        let transformed := transformMeetsData l in
        (_ ← console (LogFetched (length l));
         _ ← console_all transformed.1;
         _ ← console (LogProcessed (length transformed.2));
         counts ← syncLoop transformed.2 0 0;
         console (LogSyncCompleted (length transformed.2) counts.1 counts.2)) w1
    end.
Proof.
  intros H w1. unfold syncMeets_body.
  erewrite bind_ok
    by (apply retry_first_attempt; [done|by eapply fetchMeets_listing]).
  destruct l as [|x l]; [done|].
  cbv zeta. by destruct (transformMeetsData (x :: l)).
Qed.

(** Claim C8, as the code has it.  The service answers two runs with the same
    listings, the store rejects no insert for a reason other than the name
    being taken, and the existence queries of the second run succeed.  Then
    after the first run every transformed meet is in the store by its name,
    and the second run submits no insert, leaves the table as it is and counts
    every transformed meet as skipped. *)
Theorem second_run_skips_every_meet
    JSON_parse (l : list RawListing) (rest : list http_outcome) (w0 : World) :
  upstream w0 = listing_response l :: listing_response l :: rest ->
  no_faults (insert_faults w0) ->
  let w1 := (syncMeets JSON_parse w0).2 in
  no_faults (select_faults w1) ->
  let meets := (transformMeetsData l).2 in
  (forall m, m ∈ meets -> name_present (name m) (rows w1) = true)
  /\ exists w2,
       syncMeets JSON_parse w1 = (Returned, w2)
       /\ rows w2 = rows w1
       /\ insert_attempts w2 = insert_attempts w1
       /\ (l <> [] ->
           head (trace w2)
           = Some (Console (LogSyncCompleted (length meets) 0 (length meets)))).
Proof.
  intros Hup Hins w1 Hsel meets.
  destruct l as [|x l].
  { split; [intros m Hm; inversion Hm|]. subst w1. unfold syncMeets.
    rewrite (syncMeets_of_listing _ [] _ w0 Hup). cbn [console snd].
    erewrite (syncMeets_of_listing _ [] rest) by (cbn [upstream emit after_request]; by rewrite Hup).
    eexists. by repeat split. }
  set (first := x :: l) in *.
  assert (exists w1', w1 = emit (Console (LogSyncCompleted (length meets)
                                             (w1'.1).1 (w1'.1).2)) w1'.2
            /\ upstream w1'.2 = listing_response first :: rest
            /\ (forall m, m ∈ meets -> name_present (name m) (rows w1'.2) = true))
    as ([[i s] wl] & Hw1 & Hup1 & Hall).
  { subst w1. unfold syncMeets.
    rewrite (syncMeets_of_listing _ first _ w0 Hup). subst first. cbv zeta.
    fold meets. unfold mbind, io_bind, console.
    destruct (console_all_quiet (transformMeetsData (x :: l)).1
                (emit (Console (LogFetched (length (x :: l))))
                   (after_request (emit (Console LogFetching) w0))))
      as (wc & -> & Hcup & Hcrows & Hcsel & Hcins & _).
    destruct (syncLoop_first_run meets 0 0
                (emit (Console (LogProcessed (length meets))) wc))
      as ([i s] & wl & -> & Hlup & _ & Hall).
    { cbn [emit insert_faults]. by rewrite Hcins. }
    exists (i, s, wl). split; [done|]. split; [|done].
    cbn [snd]. rewrite Hlup. cbn [emit upstream]. rewrite Hcup.
    cbn [emit upstream after_request]. by rewrite Hup. }
  split; [intros m Hm; rewrite Hw1; by apply Hall|].
  unfold syncMeets.
  rewrite (syncMeets_of_listing _ first rest w1)
    by (rewrite Hw1; exact Hup1).
  subst first. cbv zeta. fold meets. unfold mbind, io_bind, console.
  destruct (console_all_quiet (transformMeetsData (x :: l)).1
              (emit (Console (LogFetched (length (x :: l))))
                 (after_request (emit (Console LogFetching) w1))))
    as (wc & -> & Hcup & Hcrows & Hcsel & Hcins & Hcatt).
  destruct (syncLoop_second_run meets 0 0
              (emit (Console (LogProcessed (length meets))) wc))
    as (w2 & -> & Hq).
  { cbn [emit select_faults]. by apply Hcsel. }
  { intros m Hm. cbn [emit rows]. rewrite Hcrows. cbn [emit rows after_request].
    rewrite Hw1. by apply Hall. }
  destruct Hq as (_ & Hrows & _ & _ & Hatt).
  eexists. split; [reflexivity|].
  split; [cbn [emit rows]; rewrite Hrows; cbn [emit rows]; by rewrite Hcrows|].
  split; [|done].
  unfold insert_attempts in *.
  cbn [emit trace after_request List.filter is_insert] in *.
  by rewrite Hatt, Hcatt.
Qed.

Lemma second_run_skips_every_meet_witness :
  let w1 := (syncMeets no_json world_query_fails_once).2 in
  exists w2,
    syncMeets no_json w1 = (Returned, w2)
    /\ rows w2 = rows w1
    /\ insert_attempts w2 = insert_attempts w1
    /\ head (trace w2) = Some (Console (LogSyncCompleted 2 0 2)).
Proof.
  intros w1.
  destruct (second_run_skips_every_meet no_json
              [listing_pleasanton; listing_pleasanton] [] world_query_fails_once)
    as (_ & w2 & Hrun & Hrows & Hattempts & Hlog).
  - reflexivity.
  - constructor.
  - vm_compute. constructor.
  - exists w2. repeat split; try done. by apply Hlog.
Defined.

(** Claim C8 as stated fails: all existence queries succeed, but the store
    rejects the insert of the first run, so the second run finds no row of
    that name and inserts it. *)
Lemma second_run_inserts_after_failed_insert :
  let w0 := world_insert_fails_once in
  let w1 := (syncMeets no_json w0).2 in
  let w2 := (syncMeets no_json w1).2 in
  select_faults w0 = []
  /\ (syncMeets no_json w0).1 = Returned
  /\ head (trace w1) = Some (Console (LogSyncCompleted 1 0 0))
  /\ (syncMeets no_json w1).1 = Returned
  /\ head (trace w2) = Some (Console (LogSyncCompleted 1 1 0))
  /\ insert_attempts w2 = S (insert_attempts w1)
  /\ length (rows w1) = 0%nat /\ length (rows w2) = 1%nat.
Proof. repeat split; by vm_compute. Qed.

(** * Further properties *)

(** ** Splitting what was joined *)

Section JoinFacts.
Import Text.

Lemma split_from_skip sep part b : forall x,
  split_from sep (length x) part (x ++ b) = split_from sep 0 part b.
Proof. induction x as [|c x IH]; [done|]. exact IH. Qed.

Lemma starts_with_app sep b : starts_with sep (sep ++ b) = true.
Proof. induction sep as [|c sep IH]; [done|]. simpl. by rewrite N.eqb_refl. Qed.

Lemma split_from_part c0 sep' b : forall a part,
  free_of c0 a = true ->
  split_from (c0 :: sep') 0 part (a ++ (c0 :: sep') ++ b)
  = (part ++ a) :: split_from (c0 :: sep') 0 [] b.
Proof.
  induction a as [|c a IH]; intros part Hfree.
  - rewrite app_nil_r. cbn [app split_from].
    change (starts_with (c0 :: sep') (c0 :: sep' ++ b))
      with (starts_with (c0 :: sep') ((c0 :: sep') ++ b)).
    rewrite starts_with_app. f_equal.
    replace (length (c0 :: sep') - 1)%nat with (length sep') by (simpl; lia).
    apply split_from_skip.
  - cbn [free_of forallb] in Hfree. apply andb_true_iff in Hfree as [Hc Hfree].
    cbn [app split_from starts_with].
    apply negb_true_iff in Hc. rewrite N.eqb_sym in Hc. rewrite Hc. cbn [andb].
    rewrite (IH _ Hfree). by rewrite <- app_assoc.
Qed.

Lemma split_from_last c0 sep' : forall a part,
  free_of c0 a = true ->
  split_from (c0 :: sep') 0 part a = [part ++ a].
Proof.
  induction a as [|c a IH]; intros part Hfree.
  - by rewrite app_nil_r.
  - cbn [free_of forallb] in Hfree. apply andb_true_iff in Hfree as [Hc Hfree].
    cbn [split_from starts_with].
    apply negb_true_iff in Hc. rewrite N.eqb_sym in Hc. rewrite Hc. cbn [andb].
    rewrite (IH _ Hfree). by rewrite <- app_assoc.
Qed.

(** Splitting a text that was joined gives the parts back, when no part holds
    the first unit of the separator. *)
Lemma split_join c0 sep' p parts :
  forallb (free_of c0) (p :: parts) = true ->
  split (c0 :: sep') (join (c0 :: sep') (p :: parts)) = p :: parts.
Proof.
  unfold split. revert p. induction parts as [|q parts IH]; intros p H.
  - cbn [forallb] in H. apply andb_true_iff in H as [H _].
    cbn [join]. by rewrite split_from_last.
  - cbn [forallb] in H. apply andb_true_iff in H as [Hp H].
    change (join (c0 :: sep') (p :: q :: parts))
      with (p ++ (c0 :: sep') ++ join (c0 :: sep') (q :: parts)).
    rewrite split_from_part by done. cbn [app]. f_equal. by apply IH.
Qed.

Lemma has_comma_run_app p rest :
  free_of (code ",") p = true -> has_comma_run (p ++ rest) = has_comma_run rest.
Proof.
  induction p as [|c p IH]; [done|]. intros H.
  cbn [free_of forallb] in H. apply andb_true_iff in H as [Hc H].
  cbn [app has_comma_run comma_run]. apply negb_true_iff in Hc. rewrite Hc.
  cbn [andb orb]. by apply IH.
Qed.

Lemma clean_part_free p : clean_part p = true -> free_of (code ",") p = true.
Proof. destruct p; [done|]. unfold clean_part. by intros [_ ?]%andb_true_iff. Qed.

Lemma has_comma_run_separator q rest :
  clean_part q = true ->
  has_comma_run (js ", " ++ q ++ rest) = has_comma_run rest.
Proof.
  intros Hq. pose proof (clean_part_free _ Hq) as Hfree.
  destruct q as [|c q]; [done|].
  unfold clean_part in Hq. apply andb_true_iff in Hq as [Hspace _].
  apply negb_true_iff in Hspace.
  cbn [free_of forallb] in Hfree. apply andb_true_iff in Hfree as [Hc Hfree].
  apply negb_true_iff in Hc.
  change (js ", " ++ (c :: q) ++ rest) with (44 :: 32 :: c :: (q ++ rest)).
  assert (count_spaces (32 :: c :: q ++ rest) = 1%nat) as Hcount.
  { cbn [count_spaces]. change (is_space 32) with true. cbv iota. by rewrite Hspace. }
  assert (comma_run (44 :: 32 :: c :: q ++ rest) = false) as Hrun1.
  { unfold comma_run. rewrite Hcount. cbn [drop]. rewrite Hc. apply andb_false_r. }
  assert (comma_run (c :: q ++ rest) = false) as Hrun3.
  { unfold comma_run. by rewrite Hc. }
  change (has_comma_run (44 :: 32 :: c :: q ++ rest))
    with (comma_run (44 :: 32 :: c :: q ++ rest)
          || (comma_run (32 :: c :: q ++ rest)
              || (comma_run (c :: q ++ rest) || has_comma_run (q ++ rest)))).
  rewrite Hrun1, Hrun3. cbn [orb].
  change (comma_run (32 :: c :: q ++ rest)) with false. cbn [orb].
  by apply has_comma_run_app.
Qed.

Lemma has_comma_run_after_separator : forall parts q,
  forallb clean_part (q :: parts) = true ->
  has_comma_run (js ", " ++ join (js ", ") (q :: parts)) = false.
Proof.
  induction parts as [|q' parts IH]; intros q H;
    cbn [forallb] in H; apply andb_true_iff in H as [Hq H].
  - cbn [join]. rewrite <- (app_nil_r q). by rewrite has_comma_run_separator.
  - change (join (js ", ") (q :: q' :: parts))
      with (q ++ js ", " ++ join (js ", ") (q' :: parts)).
    rewrite has_comma_run_separator by done. by apply IH.
Qed.

(** A text joined from clean parts has no run of commas to collapse. *)
Lemma has_comma_run_join p parts :
  forallb clean_part (p :: parts) = true ->
  has_comma_run (join (js ", ") (p :: parts)) = false.
Proof.
  intros H. cbn [forallb] in H. apply andb_true_iff in H as [Hp H].
  destruct parts as [|q parts].
  - cbn [join]. rewrite <- (app_nil_r p).
    by rewrite has_comma_run_app by (by apply clean_part_free).
  - change (join (js ", ") (p :: q :: parts))
      with (p ++ js ", " ++ join (js ", ") (q :: parts)).
    rewrite has_comma_run_app by (by apply clean_part_free).
    by apply has_comma_run_after_separator.
Qed.

Lemma clean_parts_free p parts :
  forallb clean_part (p :: parts) = true ->
  forallb (free_of (code ",")) (p :: parts) = true.
Proof.
  intros H. apply forallb_forall. intros x Hx.
  apply clean_part_free. by apply (proj1 (forallb_forall _ _) H).
Qed.

End JoinFacts.

(** ** parseAddress on addresses of the documented shapes *)

Lemma findIndex_bound {A} (p : A -> bool) (l : list A) :
  (-1 <= findIndex p l < Z.of_nat (length l))%Z.
Proof.
  induction l as [|x l IH]; [simpl; lia|].
  cbn [findIndex length]. destruct (p x); [lia|].
  destruct (Z.ltb_spec (findIndex p l) 0); lia.
Qed.

Lemma digit_first_is_no_country p :
  Text.starts_with_digit p = true -> is_country p = false.
Proof.
  intros H. unfold is_country. case_bool_decide as E; [|done].
  rewrite E in H. discriminate.
Qed.

Lemma is_country_true : is_country (js "United States of America") = true.
Proof. reflexivity. Qed.

(** Parsing a text joined from clean parts is parsing the parts. *)
Lemma parseAddress_of_parts p parts :
  forallb clean_part (p :: parts) = true ->
  (4 <= length (p :: parts))%nat ->
  exists r, parseParts (p :: parts) = Ok r
            /\ parseAddress (VStr (join (js ", ") (p :: parts))) = ([], r).
Proof.
  intros Hclean Hlen.
  destruct (parseParts_ok (p :: parts) Hlen) as [r Hr]. exists r. split; [done|].
  unfold parseAddress, Text.collapse_commas.
  rewrite collapse_from_without_run by (by apply has_comma_run_join).
  change (js ", ") with [44; 32].
  rewrite split_join by (by apply clean_parts_free).
  rewrite Hr. by destruct (Nat.leb_spec 4 (length (p :: parts))); [|lia].
Qed.

Lemma val_of_lookup_string (parts : list jsstring) (i : nat) :
  (i < length parts)%nat -> is_string (val_of (parts !! i)) = true.
Proof.
  intros H. destruct (lookup_lt_is_Some_2 parts i H) as [x ->]. done.
Qed.

(** Property X1.  For every string, each of the five fields of the record
    [parseAddress] returns is a string: no index it reads is out of range, so
    no field is [undefined]. *)
Theorem parseAddress_fields_are_strings (s : jsstring) :
  all_strings (parseAddress (VStr s)).2 = true.
Proof.
  unfold parseAddress.
  set (parts := Text.split (js ", ") (Text.collapse_commas s)).
  destruct (Nat.leb_spec 4 (length parts)) as [Hlen|Hlen]; [|done].
  destruct (parseParts_ok parts Hlen) as [r Hr]. rewrite Hr. cbn [snd].
  revert Hr. unfold parseParts.
  pose proof (findIndex_bound is_country parts) as Hidx.
  set (i := findIndex is_country parts) in *.
  assert (is_string (val_of (parts !! (length parts - 1)%nat)) = true) as Hzip
    by (apply val_of_lookup_string; lia).
  assert (is_string
            (val_of (if (0 <? i)%Z then parts !! Z.to_nat (i - 1)
                     else parts !! (length parts - 2)%nat)) = true) as Hstate
    by (destruct (0 <? i)%Z eqn:E; apply val_of_lookup_string; lia).
  destruct (lookup_lt_is_Some_2 parts 0) as [p0 H0]; [lia|].
  destruct (lookup_lt_is_Some_2 parts 1) as [p1 H1]; [lia|].
  destruct (lookup_lt_is_Some_2 parts 2) as [p2 H2]; [lia|].
  rewrite H0, H1, H2.
  assert (forall venue road town : jsval,
            is_string venue = true -> is_string road = true ->
            is_string town = true ->
            all_strings
              {| venueName := venue; street := road; city := town;
                 state := val_of (if (0 <? i)%Z then parts !! Z.to_nat (i - 1)
                                  else parts !! (length parts - 2)%nat);
                 zip := val_of (parts !! (length parts - 1)%nat) |} = true) as Hall.
  { intros venue road town Hvenue Hroad Htown. unfold all_strings.
    cbn [venueName street city state zip].
    by rewrite Hvenue, Hroad, Htown, Hstate, Hzip. }
  destruct (negb _).
  - destruct (Nat.leb_spec 6 (length parts)) as [H6|H6].
    + destruct (Text.has_unit_designator p2); intros [= <-]; apply Hall;
        try done.
      apply val_of_lookup_string. lia.
    + intros [= <-]. by apply Hall.
  - intros [= <-]. by apply Hall.
Qed.

(** The state [parseAddress] returns is a string, whatever the address. *)
Lemma parseAddress_state_is_string (address : jsval) :
  exists k, state (parseAddress address).2 = VStr k.
Proof.
  assert (forall v, is_string v = true -> exists k, v = VStr k) as Hstring
    by (intros [| | | |k|]; try done; eauto).
  apply Hstring. unfold parseAddress.
  destruct address as [| | | |s|]; try done.
  set (parts := Text.split (js ", ") (Text.collapse_commas s)).
  destruct (Nat.leb_spec 4 (length parts)) as [Hlen|Hlen]; [|done].
  destruct (parseParts_ok parts Hlen) as [r Hr]. rewrite Hr. cbn [snd].
  revert Hr. unfold parseParts.
  pose proof (findIndex_bound is_country parts) as Hidx.
  set (i := findIndex is_country parts) in *.
  assert (is_string
            (val_of (if (0 <? i)%Z then parts !! Z.to_nat (i - 1)
                     else parts !! (length parts - 2)%nat)) = true) as Hstate
    by (destruct (0 <? i)%Z eqn:E; apply val_of_lookup_string; lia).
  destruct (parts !! 0%nat); [|done].
  destruct (negb _); [|by intros [= <-]].
  destruct (6 <=? length parts)%nat; [|by intros [= <-]].
  destruct (parts !! 2%nat); [|done].
  by destruct (Text.has_unit_designator _); intros [= <-].
Qed.

(** Claim C6, as the code has it.  The state [parseAddress] returns for the
    address of a listing is a string, and the [venue_state] of the record is
    read off it: it is the two-letter code of that state when the table has
    it; it is that state unchanged when the table has not and the state is not
    a name every object inherits; and it is the empty string exactly when the
    state is the empty string. *)
Theorem venue_state_of_transformed_meet (meet : RawListing) :
  let abbreviation := venue_state (transformMeet meet).2 in
  exists parsed : jsstring,
    state (parseAddress (meet_address meet)).2 = VStr parsed
    /\ (forall code, stateMap !! parsed = Some code ->
          abbreviation = VStr code /\ length code = 2%nat)
    /\ (stateMap !! parsed = None -> parsed ∉ object_prototype ->
        abbreviation = VStr parsed)
    /\ (abbreviation = VStr [] <-> parsed = []).
Proof.
  intros abbreviation. unfold abbreviation. rewrite transformMeet_venue_state.
  destruct (parseAddress_state_is_string (meet_address meet)) as [parsed ->].
  exists parsed. split; [done|]. split; [|split].
  - intros code Hcode. pose proof (stateMap_codes _ _ Hcode) as Hlen.
    split; [|done].
    unfold getStateAbbreviation, js_or, get_property. rewrite Hcode.
    by destruct code.
  - intros Hnone Hproto.
    unfold getStateAbbreviation, js_or, get_property. rewrite Hnone.
    by rewrite bool_decide_eq_false_2.
  - rewrite getStateAbbreviation_empty. split; [by intros [= ->]|by intros ->].
Qed.

Lemma venue_state_of_transformed_meet_witness :
  venue_state (transformMeet listing_pleasanton).2 = VStr (js "CA")
  /\ venue_state
       (transformMeet {| meet_id := VNum 5; meet_name := VStr (js "Island Open");
                         meet_address :=
                           VStr (js "1 Marine Drive, Tamuning, Guam, 96913");
                         meet_subtitle := VStr (js "06/08/2025") |}).2
     = VStr (js "Guam").
Proof.
  split.
  - destruct (venue_state_of_transformed_meet listing_pleasanton)
      as (parsed & Hparsed & Hcode & _).
    assert (parsed = js "California") as -> by (by injection Hparsed).
    by apply (Hcode (js "CA")).
  - destruct (venue_state_of_transformed_meet
                {| meet_id := VNum 5; meet_name := VStr (js "Island Open");
                   meet_address :=
                     VStr (js "1 Marine Drive, Tamuning, Guam, 96913");
                   meet_subtitle := VStr (js "06/08/2025") |})
      as (parsed & Hparsed & _ & Hunknown & _).
    assert (parsed = js "Guam") as -> by (by injection Hparsed).
    apply Hunknown; [reflexivity|].
    intros Hin. apply (bool_decide_pack _) in Hin. by vm_compute in Hin.
Defined.

Ltac address_shape :=
  match goal with
  | |- parseAddress (VStr (join _ (?p :: ?parts))) = _ =>
      let r := fresh "r" in
      let Hparts := fresh "Hparts" in
      let Hparse := fresh "Hparse" in
      destruct (parseAddress_of_parts p parts) as (r & Hparts & Hparse);
        [try done | simpl; lia | rewrite Hparse; f_equal; revert Hparts]
  end.

(** Property X2.  An address written street first, "street, city, state,
    United States of America, zip" or the same without the country, with a
    street that starts with a digit, parses into exactly these parts and an
    empty venue name. *)
Theorem parseAddress_street_first (st c s z : jsstring) :
  forallb clean_part [st; c; s; z] = true ->
  Text.starts_with_digit st = true ->
  is_country c = false -> is_country s = false ->
  let r := {| venueName := VStr []; street := VStr st; city := VStr c;
              state := VStr s; zip := VStr z |} in
  parseAddress (VStr (join (js ", ") [st; c; s; js "United States of America"; z]))
  = ([], r)
  /\ parseAddress (VStr (join (js ", ") [st; c; s; z])) = ([], r).
Proof.
  intros Hclean Hst Hc Hs r.
  pose proof (digit_first_is_no_country _ Hst) as Hst'.
  cbn [forallb] in Hclean.
  apply andb_true_iff in Hclean as [Cst Hclean].
  apply andb_true_iff in Hclean as [Cc Hclean].
  apply andb_true_iff in Hclean as [Cs Hclean].
  apply andb_true_iff in Hclean as [Cz _].
  split; address_shape.
  - cbn [forallb]. by rewrite Cst, Cc, Cs, Cz.
  - unfold parseParts. cbn [findIndex length lookup list_lookup].
    rewrite Hst', Hc, Hs, is_country_true, Hst. cbn. by intros [= <-].
  - cbn [forallb]. by rewrite Cst, Cc, Cs, Cz.
  - unfold parseParts. cbn [findIndex length lookup list_lookup].
    rewrite Hst', Hc, Hs, Hst.
    destruct (is_country z); cbn; by intros [= <-].
Qed.

Lemma parseAddress_street_first_witness :
  parseAddress
    (VStr (js "1201 Houston Street, Fort Worth, Texas, United States of America, 76102"))
  = ([], {| venueName := VStr []; street := VStr (js "1201 Houston Street");
            city := VStr (js "Fort Worth"); state := VStr (js "Texas");
            zip := VStr (js "76102") |})
  /\ parseAddress (VStr (js "1201 Houston Street, Fort Worth, Texas, 76102"))
     = ([], {| venueName := VStr []; street := VStr (js "1201 Houston Street");
               city := VStr (js "Fort Worth"); state := VStr (js "Texas");
               zip := VStr (js "76102") |}).
Proof.
  apply (parseAddress_street_first (js "1201 Houston Street") (js "Fort Worth")
           (js "Texas") (js "76102")); reflexivity.
Defined.

Lemma clean_parts_split p parts :
  forallb clean_part (p :: parts) = true ->
  clean_part p = true /\ forallb clean_part parts = true.
Proof. cbn [forallb]. by intros ?%andb_true_iff. Qed.

(** Property X3.  An address written venue first.  With five parts the
    venue, street, city, state and zip are the parts in this order.  With the
    country as a sixth part the same holds when the city matches none of
    Suite, Unit, Apt and #; when it does (Unity, say), the city is taken for a
    suite: it is appended to the street, and the state is returned as the city
    too. *)
Theorem parseAddress_venue_first (v st c s z : jsstring) :
  forallb clean_part [v; st; c; s; z] = true ->
  Text.starts_with_digit v = false ->
  is_country v = false -> is_country st = false ->
  is_country c = false -> is_country s = false ->
  let country := js "United States of America" in
  let r := {| venueName := VStr v; street := VStr st; city := VStr c;
              state := VStr s; zip := VStr z |} in
  parseAddress (VStr (join (js ", ") [v; st; c; s; z])) = ([], r)
  /\ (Text.has_unit_designator c = false ->
      parseAddress (VStr (join (js ", ") [v; st; c; s; country; z])) = ([], r))
  /\ (Text.has_unit_designator c = true ->
      parseAddress (VStr (join (js ", ") [v; st; c; s; country; z]))
      = ([], {| venueName := VStr v; street := VStr (st ++ js ", " ++ c);
                city := VStr s; state := VStr s; zip := VStr z |})).
Proof.
  intros Hclean Hv Nv Nst Nc Ns country r.
  assert (forallb clean_part [v; st; c; s; country; z] = true) as Hclean'.
  { cbn [forallb] in *. repeat (apply andb_true_iff in Hclean as [? Hclean]).
    repeat (apply andb_true_iff; split); done. }
  split; [|split; intros Hunit]; address_shape.
  - unfold parseParts. cbn [findIndex length lookup list_lookup].
    rewrite Nv, Nst, Nc, Ns, Hv.
    destruct (is_country z); cbn; by intros [= <-].
  - unfold parseParts. cbn [findIndex length lookup list_lookup].
    rewrite Nv, Nst, Nc, Ns, Hv, Hunit. subst country. rewrite is_country_true.
    cbn. by intros [= <-].
  - unfold parseParts. cbn [findIndex length lookup list_lookup].
    rewrite Nv, Nst, Nc, Ns, Hv, Hunit. subst country. rewrite is_country_true.
    cbn. by intros [= <-].
Qed.

Lemma parseAddress_venue_first_witness :
  parseAddress
    (VStr (js "Fort Worth Convention Center, 1201 Houston Street, Fort Worth, Texas, United States of America, 76102"))
  = ([], {| venueName := VStr (js "Fort Worth Convention Center");
            street := VStr (js "1201 Houston Street");
            city := VStr (js "Fort Worth"); state := VStr (js "Texas");
            zip := VStr (js "76102") |})
  /\ parseAddress
       (VStr (js "Field House, 90 Quaker Hill Road, Unity, Maine, United States of America, 04988"))
     = ([], {| venueName := VStr (js "Field House");
               street := VStr (js "90 Quaker Hill Road, Unity");
               city := VStr (js "Maine"); state := VStr (js "Maine");
               zip := VStr (js "04988") |}).
Proof.
  split.
  - apply (proj1 (proj2 (parseAddress_venue_first
             (js "Fort Worth Convention Center") (js "1201 Houston Street")
             (js "Fort Worth") (js "Texas") (js "76102")
             eq_refl eq_refl eq_refl eq_refl eq_refl eq_refl))).
    reflexivity.
  - apply (proj2 (proj2 (parseAddress_venue_first
             (js "Field House") (js "90 Quaker Hill Road")
             (js "Unity") (js "Maine") (js "04988")
             eq_refl eq_refl eq_refl eq_refl eq_refl eq_refl))).
    reflexivity.
Defined.

(** Property X4.  An address written venue first whose third part is a unit
    designator: the designator is appended to the street after a comma and a
    space, and the city, state and zip are the parts that follow, with the
    country or without it. *)
Theorem parseAddress_venue_with_suite (v st u c s z : jsstring) :
  forallb clean_part [v; st; u; c; s; z] = true ->
  Text.starts_with_digit v = false ->
  Text.has_unit_designator u = true ->
  is_country v = false -> is_country st = false -> is_country u = false ->
  is_country c = false -> is_country s = false ->
  let country := js "United States of America" in
  let r := {| venueName := VStr v; street := VStr (st ++ js ", " ++ u);
              city := VStr c; state := VStr s; zip := VStr z |} in
  parseAddress (VStr (join (js ", ") [v; st; u; c; s; country; z])) = ([], r)
  /\ parseAddress (VStr (join (js ", ") [v; st; u; c; s; z])) = ([], r).
Proof.
  intros Hclean Hv Hunit Nv Nst Nu Nc Ns country r.
  assert (forallb clean_part [v; st; u; c; s; country; z] = true) as Hclean'.
  { cbn [forallb] in *. repeat (apply andb_true_iff in Hclean as [? Hclean]).
    repeat (apply andb_true_iff; split); done. }
  split; address_shape.
  - unfold parseParts. cbn [findIndex length lookup list_lookup].
    rewrite Nv, Nst, Nu, Nc, Ns, Hv, Hunit. subst country. rewrite is_country_true.
    cbn. by intros [= <-].
  - unfold parseParts. cbn [findIndex length lookup list_lookup].
    rewrite Nv, Nst, Nu, Nc, Ns, Hv, Hunit.
    destruct (is_country z); cbn; by intros [= <-].
Qed.

Lemma parseAddress_venue_with_suite_witness :
  parseAddress
    (VStr (js "CrossFit Revamped, 9385 Washington Blvd., Suite B-C, Laurel, Maryland, United States of America, 20723"))
  = ([], {| venueName := VStr (js "CrossFit Revamped");
            street := VStr (js "9385 Washington Blvd., Suite B-C");
            city := VStr (js "Laurel"); state := VStr (js "Maryland");
            zip := VStr (js "20723") |}).
Proof.
  apply (proj1 (parseAddress_venue_with_suite
           (js "CrossFit Revamped") (js "9385 Washington Blvd.") (js "Suite B-C")
           (js "Laurel") (js "Maryland") (js "20723")
           eq_refl eq_refl eq_refl eq_refl eq_refl eq_refl eq_refl eq_refl)).
Defined.

(** ** parseDateRange on dates of the documented format *)

Lemma free_of_app c a b : free_of c (a ++ b) = free_of c a && free_of c b.
Proof. apply forallb_app. Qed.

Lemma all_digits_free c s :
  Text.is_digit c = false -> all_digits s = true -> free_of c s = true.
Proof.
  intros Hc. induction s as [|d s IH]; [done|].
  cbn [all_digits free_of forallb]. intros [Hd Hs]%andb_true_iff.
  apply andb_true_iff. split; [|by apply IH].
  apply negb_true_iff, N.eqb_neq. intros ->. congruence.
Qed.

Lemma unescape_free a b :
  free_of (code "\") a = true ->
  Text.unescape_slashes (a ++ b) = a ++ Text.unescape_slashes b.
Proof.
  induction a as [|c a IH]; [done|].
  cbn [free_of forallb]. intros [Hc Ha]%andb_true_iff. apply negb_true_iff in Hc.
  cbn [app Text.unescape_slashes]. rewrite Hc. cbn [andb].
  specialize (IH Ha). destruct (a ++ b) eqn:E.
  - apply app_eq_nil in E as [-> ->]. done.
  - f_equal. exact IH.
Qed.

Lemma unescape_date sl m d y rest :
  sl = js "/" \/ sl = js "\/" ->
  all_digits m = true -> all_digits d = true -> all_digits y = true ->
  Text.unescape_slashes (m ++ sl ++ d ++ sl ++ y ++ rest)
  = m ++ js "/" ++ d ++ js "/" ++ y ++ Text.unescape_slashes rest.
Proof.
  intros Hsl Hm Hd Hy.
  assert (forall s, all_digits s = true -> free_of (code "\") s = true) as Hfree
    by (intros s; by apply all_digits_free).
  assert (forall b, Text.unescape_slashes (sl ++ b) = js "/" ++ Text.unescape_slashes b)
    as Hsep.
  { intros b. destruct Hsl as [-> | ->]; [|done].
    by apply (unescape_free (js "/") b). }
  rewrite unescape_free by auto. rewrite Hsep.
  rewrite unescape_free by auto. rewrite Hsep.
  by rewrite unescape_free by auto.
Qed.

Lemma split_date m d y :
  all_digits m = true -> all_digits d = true -> all_digits y = true ->
  Text.split (js "/") (m ++ js "/" ++ d ++ js "/" ++ y) = [m; d; y].
Proof.
  intros Hm Hd Hy.
  change (m ++ js "/" ++ d ++ js "/" ++ y) with (join (js "/") [m; d; y]).
  change (js "/") with [47]. apply split_join. cbn [forallb].
  by rewrite !all_digits_free.
Qed.

Lemma date_free_of_space m d y :
  all_digits m = true -> all_digits d = true -> all_digits y = true ->
  free_of 32 (m ++ js "/" ++ d ++ js "/" ++ y) = true.
Proof.
  intros Hm Hd Hy. rewrite !free_of_app.
  by rewrite (all_digits_free 32 m), (all_digits_free 32 d), (all_digits_free 32 y).
Qed.

Lemma unescape_date_end sl m d y :
  sl = js "/" \/ sl = js "\/" ->
  all_digits m = true -> all_digits d = true -> all_digits y = true ->
  Text.unescape_slashes (m ++ sl ++ d ++ sl ++ y) = m ++ js "/" ++ d ++ js "/" ++ y.
Proof.
  intros Hsl Hm Hd Hy.
  pose proof (unescape_date sl m d y [] Hsl Hm Hd Hy) as H.
  by rewrite !app_nil_r in H.
Qed.

Lemma split_dash_one a : free_of 32 a = true -> Text.split (js " - ") a = [a].
Proof. intros H. by apply (split_from_last 32 [45; 32] a []). Qed.

Lemma split_dash_two a b :
  free_of 32 a = true -> free_of 32 b = true ->
  Text.split (js " - ") (a ++ js " - " ++ b) = [a; b].
Proof.
  intros Ha Hb. unfold Text.split. change (js " - ") with (32 :: [45; 32]).
  rewrite (split_from_part 32 [45; 32] b a []) by done.
  by rewrite (split_from_last 32 [45; 32] b []).
Qed.

(** Property X5.  Dates written month/day/year in digits, the slashes plain
    or escaped: a single date gives year-month-day as both the start and the
    end, and two dates around [" - "] give the first as the start and the
    second as the end. *)
Theorem parseDateRange_month_day_year (sl m d y m' d' y' : jsstring) :
  sl = js "/" \/ sl = js "\/" ->
  forallb all_digits [m; d; y; m'; d'; y'] = true ->
  let iso m d y := VStr (y ++ js "-" ++ m ++ js "-" ++ d) in
  parseDateRange (VStr (m ++ sl ++ d ++ sl ++ y))
  = ([], {| startDate := iso m d y; endDate := iso m d y |})
  /\ parseDateRange
       (VStr ((m ++ sl ++ d ++ sl ++ y) ++ js " - " ++ (m' ++ sl ++ d' ++ sl ++ y')))
     = ([], {| startDate := iso m d y; endDate := iso m' d' y' |}).
Proof.
  intros Hsl Hall iso. cbn [forallb] in Hall.
  apply andb_true_iff in Hall as [Hm Hall].
  apply andb_true_iff in Hall as [Hd Hall].
  apply andb_true_iff in Hall as [Hy Hall].
  apply andb_true_iff in Hall as [Hm' Hall].
  apply andb_true_iff in Hall as [Hd' Hall].
  apply andb_true_iff in Hall as [Hy' _].
  split.
  - destruct (parseDateRange_of_string (m ++ sl ++ d ++ sl ++ y))
      as (d0 & rest & E & ->).
    rewrite unescape_date_end in E by done.
    rewrite split_dash_one in E by (by apply date_free_of_space).
    assert (d0 = m ++ js "/" ++ d ++ js "/" ++ y /\ rest = []) as [-> ->]
      by (by injection E).
    by rewrite split_date.
  - destruct (parseDateRange_of_string
                ((m ++ sl ++ d ++ sl ++ y) ++ js " - " ++ (m' ++ sl ++ d' ++ sl ++ y')))
      as (d0 & rest & E & ->).
    assert (Text.unescape_slashes
              ((m ++ sl ++ d ++ sl ++ y) ++ js " - " ++ (m' ++ sl ++ d' ++ sl ++ y'))
            = (m ++ js "/" ++ d ++ js "/" ++ y)
              ++ js " - " ++ (m' ++ js "/" ++ d' ++ js "/" ++ y')) as Hclean.
    { rewrite <- !app_assoc. rewrite unescape_date by done.
      rewrite (unescape_free (js " - ")) by done.
      by rewrite unescape_date_end by done. }
    rewrite Hclean in E.
    rewrite split_dash_two in E by (by apply date_free_of_space).
    assert (d0 = m ++ js "/" ++ d ++ js "/" ++ y
            /\ rest = [m' ++ js "/" ++ d' ++ js "/" ++ y']) as [-> ->]
      by (by injection E).
    rewrite bool_decide_eq_false_2 by (by destruct m').
    by rewrite !split_date.
Qed.

Lemma parseDateRange_month_day_year_witness :
  parseDateRange (VStr (js "06\/08\/2025 - 06\/09\/2025"))
  = ([], {| startDate := VStr (js "2025-06-08"); endDate := VStr (js "2025-06-09") |}).
Proof.
  apply (proj2 (parseDateRange_month_day_year (js "\/")
                  (js "06") (js "08") (js "2025") (js "06") (js "09") (js "2025")
                  (or_intror eq_refl) eq_refl)).
Defined.

(** ** The two tables *)

Lemma lookup_entries (entries : list (jsstring * jsstring)) k v :
  (list_to_map entries : gmap jsstring jsstring) !! k = Some v -> (k, v) ∈ entries.
Proof. apply elem_of_list_to_map_2. Qed.

Lemma lookup_entries_is_Some (entries : list (jsstring * jsstring)) k :
  is_Some ((list_to_map entries : gmap jsstring jsstring) !! k) <-> k ∈ entries.*1.
Proof.
  split.
  - intros [v H]. apply lookup_entries in H.
    by apply (list_elem_of_fmap_2 fst _ (k, v)).
  - intros H. destruct (_ !! k) eqn:E; [done|].
    by apply not_elem_of_list_to_map_2 in E.
Qed.

Lemma entries_forall (P : jsstring * jsstring -> bool) entries k v :
  forallb P entries = true ->
  (list_to_map entries : gmap jsstring jsstring) !! k = Some v -> P (k, v) = true.
Proof.
  intros Hall H. apply lookup_entries in H.
  rewrite forallb_forall in Hall. apply Hall. by apply list_elem_of_In.
Qed.

Lemma NoDup_snd_injective (entries : list (jsstring * jsstring)) k1 k2 v :
  NoDup entries.*2 -> (k1, v) ∈ entries -> (k2, v) ∈ entries -> k1 = k2.
Proof.
  induction entries as [|[k c] entries IH]; intros Hnd H1 H2.
  - by apply elem_of_nil in H1.
  - cbn [fmap list_fmap snd] in Hnd. apply NoDup_cons in Hnd as [Hc Hnd].
    apply elem_of_cons in H1 as [H1|H1]; apply elem_of_cons in H2 as [H2|H2];
      simplify_eq; try done.
    + destruct Hc. by apply (list_elem_of_fmap_2 snd _ (k2, c)).
    + destruct Hc. by apply (list_elem_of_fmap_2 snd _ (k1, c)).
    + by apply IH.
Qed.

(** Property X6.  [mapTimeZone] returns the zone of a state of its table,
    which is one of seven zone names, and ["America/New_York"] for everything
    its table does not know: no entry of the table is overridden by the
    default. *)
Theorem mapTimeZone_zone_or_default :
  (forall k z, timeZoneMap !! k = Some z ->
     mapTimeZone (VStr k) = VStr z /\ z ∈ zones)
  /\ (forall state, unknown_to timeZoneMap state ->
        mapTimeZone state = VStr (js "America/New_York")).
Proof.
  split.
  - intros k z H. unfold mapTimeZone, js_or, get_property. rewrite H.
    pose proof (entries_forall
                  (fun kv => bool_decide (kv.2 ∈ zones) && (0 <? length kv.2)%nat)
                  timeZoneMap_entries k z eq_refl H) as Hz.
    cbn [snd] in Hz. apply andb_true_iff in Hz as [Hz Hlen].
    apply bool_decide_eq_true in Hz. split; [|done].
    by destruct z.
  - intros state H. unfold mapTimeZone, js_or, get_property.
    destruct state; try done. destruct H as [-> H].
    by rewrite bool_decide_eq_false_2.
Qed.

Lemma mapTimeZone_zone_or_default_witness :
  mapTimeZone (VStr (js "Texas")) = VStr (js "America/Chicago")
  /\ mapTimeZone (VStr (js "Unknown")) = VStr (js "America/New_York")
  /\ mapTimeZone (VStr []) = VStr (js "America/New_York")
  /\ mapTimeZone VUndefined = VStr (js "America/New_York").
Proof.
  split; [|split; [|split]].
  - apply (proj1 mapTimeZone_zone_or_default (js "Texas")). reflexivity.
  - apply (proj2 mapTimeZone_zone_or_default (VStr (js "Unknown"))).
    split; [reflexivity|]. intros Hin. apply (bool_decide_pack _) in Hin. by vm_compute in Hin.
  - apply (proj2 mapTimeZone_zone_or_default (VStr [])).
    split; [reflexivity|]. intros Hin. apply (bool_decide_pack _) in Hin. by vm_compute in Hin.
  - by apply (proj2 mapTimeZone_zone_or_default VUndefined).
Defined.

(** Property X7.  The tables of [getStateAbbreviation] and [mapTimeZone] have
    the same states; no two states share an abbreviation; every abbreviation
    is two upper-case letters. *)
Theorem state_tables_agree :
  (forall k, is_Some (stateMap !! k) <-> is_Some (timeZoneMap !! k))
  /\ (forall k1 k2 c,
        stateMap !! k1 = Some c -> stateMap !! k2 = Some c -> k1 = k2)
  /\ (forall k c, stateMap !! k = Some c ->
        length c = 2%nat /\ forallb is_upper c = true).
Proof.
  split; [|split].
  - intros k. unfold stateMap, timeZoneMap. rewrite !lookup_entries_is_Some.
    by replace (stateMap_entries.*1) with (timeZoneMap_entries.*1) by reflexivity.
  - intros k1 k2 c H1 H2.
    apply (NoDup_snd_injective stateMap_entries k1 k2 c);
      [|by apply lookup_entries..].
    apply (bool_decide_unpack (NoDup stateMap_entries.*2)). by vm_compute.
  - intros k c H.
    pose proof (entries_forall
                  (fun kv => (length kv.2 =? 2)%nat && forallb is_upper kv.2)
                  stateMap_entries k c eq_refl H) as Hc.
    cbn [snd] in Hc. apply andb_true_iff in Hc as [Hlen Hup].
    by apply Nat.eqb_eq in Hlen.
Qed.

Lemma state_tables_agree_witness :
  js "Ohio" = js "Ohio"
  /\ length (js "OH") = 2%nat /\ forallb is_upper (js "OH") = true.
Proof.
  split.
  - apply (proj1 (proj2 state_tables_agree) (js "Ohio") (js "Ohio") (js "OH"));
      reflexivity.
  - apply (proj2 (proj2 state_tables_agree) (js "Ohio") (js "OH")). reflexivity.
Defined.

(** Property X8.  Abbreviating twice is abbreviating once: an abbreviation,
    or anything else the function returns, is returned as it is. *)
Theorem getStateAbbreviation_idempotent (v : jsval) :
  getStateAbbreviation (getStateAbbreviation v) = getStateAbbreviation v.
Proof.
  destruct (getStateAbbreviation_cases v)
    as [(k & c & -> & Hk & Hc & ->)|[(k & -> & _ & ->)|H]];
    [|reflexivity|by rewrite !H].
  unfold getStateAbbreviation at 1. unfold js_or, get_property.
  lazymatch goal with
  | |- context [@lookup ?K ?V ?M ?I ?x stateMap] =>
      destruct (@lookup K V M I x stateMap) as [c'|] eqn:E
  end.
  { pose proof (entries_forall (fun kv => (4 <=? length kv.1)%nat)
                  stateMap_entries c c' eq_refl E) as Hlen.
    cbn [fst] in Hlen. apply Nat.leb_le in Hlen. lia. }
  rewrite bool_decide_eq_false_2; [reflexivity|].
  intros Hin.
  assert (Forall (fun name : jsstring => (6 <= length name)%nat) object_prototype)
    as Hall by (repeat constructor; simpl; lia).
  rewrite Forall_forall in Hall. specialize (Hall _ Hin). lia.
Qed.

(** ** transformMeetsData *)

Lemma has_dates_is_string (meet : RawListing) :
  has_dates (transformMeet meet).2 = is_string (meet_subtitle meet).
Proof.
  destruct (meet_subtitle meet) as [| | | |s|] eqn:E;
    try (unfold transformMeet; rewrite E; by destruct (parseAddress _)).
  exact (string_subtitle_is_kept meet s E).
Qed.

(** Property X9.  [transformMeetsData] keeps exactly the listings whose
    subtitle is a string, in their order, each as [transformMeet] builds it;
    the identifiers of the kept listings come out as [external_id]. *)
Theorem transformMeetsData_keeps_string_subtitles (meetsData : list RawListing) :
  (transformMeetsData meetsData).2
  = map (fun meet => (transformMeet meet).2)
      (List.filter (fun meet => is_string (meet_subtitle meet)) meetsData)
  /\ map external_id (transformMeetsData meetsData).2
     = map meet_id
         (List.filter (fun meet => is_string (meet_subtitle meet)) meetsData)
  /\ (length (transformMeetsData meetsData).2 <= length meetsData)%nat.
Proof.
  assert ((transformMeetsData meetsData).2
          = map (fun meet => (transformMeet meet).2)
              (List.filter (fun meet => is_string (meet_subtitle meet)) meetsData))
    as Hkeep.
  { unfold transformMeetsData. cbn [snd].
    induction meetsData as [|meet rest IH]; [done|].
    cbn [map List.filter]. rewrite has_dates_is_string.
    destruct (is_string (meet_subtitle meet)); cbn [map]; by rewrite IH. }
  split; [done|]. rewrite Hkeep. split.
  - rewrite map_map. apply map_ext. intros meet. unfold transformMeet.
    by destruct (parseAddress _), (parseDateRange _).
  - rewrite length_map. apply filter_length_le.
Qed.

(** Property X10.  A listing whose address has no supported shape (it is no
    string, or it has fewer than four parts) is not dropped for that: its
    record has the listing's name as venue name, ["Unknown"] as city, state
    and zip, the eastern time zone, and as street the collapsed text, or the
    value itself when it is no string. *)
Theorem transformMeet_unsupported_address (meet : RawListing) :
  unsupported_address (meet_address meet) ->
  (transformMeet meet).2
  = {| name := meet_name meet;
       venue_name := meet_name meet;
       venue_street := degraded_street (meet_address meet);
       venue_city := VStr (js "Unknown");
       venue_state := VStr (js "Unknown");
       venue_zip := VStr (js "Unknown");
       time_zone := VStr (js "America/New_York");
       start_date := startDate (parseDateRange (meet_subtitle meet)).2;
       end_date := endDate (parseDateRange (meet_subtitle meet)).2;
       status := VStr (js "upcoming");
       external_id := meet_id meet |}.
Proof.
  intros H. unfold transformMeet.
  assert ((parseAddress (meet_address meet)).2
          = degraded (degraded_street (meet_address meet))) as Haddr.
  { unfold parseAddress, unsupported_address, degraded_street in *.
    destruct (meet_address meet); try done.
    by destruct (Nat.leb_spec 4 (length (Text.split (js ", ") (Text.collapse_commas s))));
      [lia|]. }
  destruct (parseAddress _) as [diag a]. cbn [snd] in Haddr. subst a.
  by destruct (parseDateRange _).
Qed.

Lemma transformMeet_unsupported_address_witness :
  venue_street
    (transformMeet {| meet_id := VNum 3; meet_name := VStr (js "Fall Classic");
                      meet_address := VUndefined;
                      meet_subtitle := VStr (js "10/04/2025") |}).2
  = VUndefined
  /\ venue_street
       (transformMeet {| meet_id := VNum 4; meet_name := VStr (js "Fall Classic");
                         meet_address := VStr (js "Online,, TBD");
                         meet_subtitle := VStr (js "10/04/2025") |}).2
     = VStr (js "Online, TBD").
Proof.
  split.
  - by rewrite (transformMeet_unsupported_address
                  {| meet_id := VNum 3; meet_name := VStr (js "Fall Classic");
                     meet_address := VUndefined;
                     meet_subtitle := VStr (js "10/04/2025") |}).
  - rewrite (transformMeet_unsupported_address
               {| meet_id := VNum 4; meet_name := VStr (js "Fall Classic");
                  meet_address := VStr (js "Online,, TBD");
                  meet_subtitle := VStr (js "10/04/2025") |});
      [reflexivity|]. vm_compute. lia.
Defined.

(** ** retry in general *)

Section RetryInGeneral.
Context {A : Type}.
Implicit Types (fn : io A) (w : World).

Lemma retry_loop_after_failures fn maxRetries : forall k retries fuel w wk,
  (retries + Z.of_nat k < maxRetries)%Z -> (k <= fuel)%nat ->
  failures_from fn maxRetries retries k w = Some wk ->
  retry_loop fuel fn maxRetries retries w
  = retry_loop (fuel - k) fn maxRetries (retries + Z.of_nat k) wk.
Proof.
  induction k as [|k IH]; intros retries fuel w wk Hlt Hfuel H.
  - injection H as ->. by rewrite Nat.sub_0_r, Z.add_0_r.
  - cbn [failures_from] in H. destruct fuel as [|fuel]; [lia|].
    rewrite retry_loop_step by lia.
    destruct (fn w) as [[a|e] w']; [done|].
    destruct (Z.leb_spec maxRetries (retries + 1)); [lia|].
    rewrite (IH _ fuel _ wk) by (done || lia).
    f_equal. lia.
Qed.

Lemma retry_loop_sleeps fn maxRetries :
  (forall w, exists e w', fn w = (Throw e, w')) ->
  (forall w, sleeps (fn w).2 = sleeps w) ->
  forall fuel retries w,
    (0 <= retries < maxRetries)%Z -> (Z.to_nat (maxRetries - retries) <= fuel)%nat ->
    sleeps (retry_loop fuel fn maxRetries retries w).2
    = rev (map (fun i => backoff_delay (Z.of_nat i))
             (seq (S (Z.to_nat retries)) (Z.to_nat (maxRetries - retries) - 1)))
      ++ sleeps w.
Proof.
  intros Hfail Hquiet.
  induction fuel as [|fuel IH]; intros retries w Hr Hfuel; [lia|].
  rewrite retry_loop_step by lia.
  pose proof (Hquiet w) as Q. destruct (Hfail w) as (e & w' & E).
  rewrite E in Q |- *. cbn [snd] in Q.
  destruct (Z.leb_spec maxRetries (retries + 1)).
  - replace (Z.to_nat (maxRetries - retries) - 1)%nat with 0%nat by lia. done.
  - rewrite IH by lia.
    replace (Z.to_nat (maxRetries - retries) - 1)%nat
      with (S (Z.to_nat (maxRetries - (retries + 1)) - 1)) by lia.
    cbn [seq map rev]. rewrite <- app_assoc. cbn [app].
    replace (S (Z.to_nat (retries + 1))) with (S (S (Z.to_nat retries))) by lia.
    f_equal. unfold pause, sleeps. cbn [emit trace flat_map app].
    fold (sleeps w'). rewrite Q. do 2 f_equal. lia.
Qed.

End RetryInGeneral.

(** Property X11.  When the first [k] attempts fail and attempt [k + 1] is
    within [maxRetries] and succeeds, [retry] returns the result of that
    attempt and makes no further one. *)
Theorem retry_returns_first_success {A} (fn : io A) (maxRetries : Z) (k : nat)
    (w wk : World) (a : A) (w' : World) :
  (Z.of_nat k < maxRetries)%Z ->
  failures_from fn maxRetries 0 k w = Some wk ->
  fn wk = (Ok a, w') ->
  retry fn maxRetries w = (Ok (Some a), w').
Proof.
  intros Hk Hfail Hok. unfold retry.
  rewrite (retry_loop_after_failures fn maxRetries k 0 _ w wk) by (done || lia).
  destruct (Z.to_nat maxRetries - k)%nat as [|fuel] eqn:E; [lia|].
  rewrite retry_loop_step by lia. by rewrite Hok.
Qed.

Lemma retry_returns_first_success_witness :
  exists w',
    retry axios_get 3 world_two_failures
    = (Ok (Some {| resp_status := 200;
                   resp_data := BDocument (DObject (PArray [listing_pleasanton])) |}),
       w').
Proof.
  eexists.
  eapply (retry_returns_first_success axios_get 3 2 world_two_failures);
    [lia|reflexivity|reflexivity].
Defined.

(** Property X12.  With at most 22 attempts and an operation that always
    fails and does not sleep itself, [retry] sleeps [maxRetries - 1] times
    before it raises, 2^1, 2^2, ... seconds in this order: it does not sleep
    after the last failure, and every delay is at least two seconds, at most
    2^(maxRetries - 1) seconds and below 2^31 ms, the range in which the
    doubles of the source are these integers and a timer honours its delay. *)
Theorem retry_exhaustion_delays {A} (fn : io A) (maxRetries : Z) (w : World) :
  (1 <= maxRetries <= 22)%Z ->
  (forall w, exists e w', fn w = (Throw e, w')) ->
  (forall w, sleeps (fn w).2 = sleeps w) ->
  sleeps (retry fn maxRetries w).2 = backoff_delays (Z.to_nat maxRetries) ++ sleeps w
  /\ length (backoff_delays (Z.to_nat maxRetries)) = (Z.to_nat maxRetries - 1)%nat
  /\ forall delay, delay ∈ backoff_delays (Z.to_nat maxRetries) ->
       (2000 <= delay <= 2 ^ (maxRetries - 1) * 1000)%Z
       /\ (delay < 2 ^ 31)%Z.
Proof.
  intros Hmax Hfail Hquiet. split; [|split].
  - unfold retry. rewrite retry_loop_sleeps by (done || lia).
    unfold backoff_delays. by rewrite Z.sub_0_r.
  - unfold backoff_delays. by rewrite length_rev, length_map, length_seq.
  - intros delay. unfold backoff_delays.
    rewrite list_elem_of_In, <- in_rev, in_map_iff.
    intros (i & <- & Hi). apply in_seq in Hi. unfold backoff_delay.
    assert (2 ^ 1 <= 2 ^ Z.of_nat i <= 2 ^ (maxRetries - 1))%Z
      by (split; apply Z.pow_le_mono_r; lia).
    assert (2 ^ (maxRetries - 1) <= 2 ^ 21)%Z by (apply Z.pow_le_mono_r; lia).
    lia.
Qed.

Lemma retry_exhaustion_delays_witness :
  sleeps (retry (throw (A := unit) TypeError) 3 empty_world).2 = [4000; 2000]%Z.
Proof.
  apply (proj1 (retry_exhaustion_delays (throw (A := unit) TypeError) 3 empty_world
                  ltac:(lia) (fun w => ex_intro _ TypeError (ex_intro _ w eq_refl))
                  (fun w => eq_refl))).
Defined.

(** ** fetchMeets under retry *)

(** What a call of [fetchMeets] changes: it takes one outcome of the listing
    service and sends one request; it leaves the store alone and does not
    sleep. *)
Lemma fetchMeets_frame JSON_parse w :
  let w' := (fetchMeets JSON_parse w).2 in
  upstream w' = tail (upstream w) /\ rows w' = rows w
  /\ select_faults w' = select_faults w /\ insert_faults w' = insert_faults w
  /\ sleeps w' = sleeps w /\ requests w' = S (requests w)
  /\ insert_attempts w' = insert_attempts w /\ selects w' = selects w.
Proof.
  unfold fetchMeets, try_catch, mbind, io_bind, console, document_data, throw,
    mret, io_ret, axios_get.
  cbn [upstream emit].
  destruct (upstream w) as [|[message|response] rest]; [by repeat split..|].
  destruct (_ && _); [|by repeat split].
  destruct (negb _); [by repeat split|].
  destruct (resp_data response) as [text|[|data]]; [|by repeat split..].
  destruct (JSON_parse text) as [[|data]|]; by repeat split.
Qed.

(** Property X13.  [retry] around [fetchMeets] never makes a second attempt:
    whatever the listing service does, one request is sent, nothing is slept,
    and the result of [fetchMeets] is returned. *)
Theorem retry_fetchMeets_single_request JSON_parse (maxRetries : Z) (w : World) :
  (1 <= maxRetries)%Z ->
  exists data w',
    fetchMeets JSON_parse w = (Ok data, w')
    /\ retry (fetchMeets JSON_parse) maxRetries w = (Ok (Some data), w')
    /\ requests w' = S (requests w)
    /\ sleeps w' = sleeps w
    /\ upstream w' = tail (upstream w).
Proof.
  intros Hmax.
  destruct (fetchMeets_never_raises JSON_parse w) as (data & w' & Hfetch).
  pose proof (fetchMeets_frame JSON_parse w) as Hframe.
  rewrite Hfetch in Hframe. cbn [snd] in Hframe.
  destruct Hframe as (Hup & _ & _ & _ & Hsleeps & Hreq & _).
  exists data, w'. split; [done|]. split; [|done].
  unfold retry. destruct (Z.to_nat maxRetries) as [|fuel] eqn:E; [lia|].
  rewrite retry_loop_step by lia. by rewrite Hfetch.
Qed.

Lemma retry_fetchMeets_single_request_witness :
  exists data w',
    fetchMeets no_json world_three_failures = (Ok data, w')
    /\ retry (fetchMeets no_json) 3 world_three_failures = (Ok (Some data), w')
    /\ requests w' = 1%nat
    /\ sleeps w' = []
    /\ upstream w' = [HttpFails (js "ETIMEDOUT"); HttpFails (js "EAI_AGAIN")].
Proof.
  apply (retry_fetchMeets_single_request no_json 3 world_three_failures). lia.
Defined.

(** Property X14.  [fetchMeets] returns listings only from an answer with
    status 200 whose body holds them, as a document or as text that
    [JSON.parse] decodes: any other status, also another 2xx, gives none. *)
Theorem fetchMeets_listings_need_status_200 JSON_parse w x l w' :
  fetchMeets JSON_parse w = (Ok (PArray (x :: l)), w') ->
  exists response rest,
    upstream w = HttpResponds response :: rest
    /\ resp_status response = 200%Z
    /\ (resp_data response = BDocument (DObject (PArray (x :: l)))
        \/ exists text, resp_data response = BText text
                        /\ JSON_parse text = Some (DObject (PArray (x :: l)))).
Proof.
  unfold fetchMeets, try_catch, mbind, io_bind, console, document_data, throw,
    mret, io_ret, axios_get.
  cbn [upstream emit].
  destruct (upstream w) as [|[message|response] rest]; [done..|].
  destruct (_ && _); [|done].
  destruct (Z.eqb_spec (resp_status response) 200) as [Hstatus|]; [|done].
  cbn [negb].
  destruct (resp_data response) as [text|[|data]] eqn:Hdata; [|done|].
  - destruct (JSON_parse text) as [[|data]|] eqn:Hparse; [done| |done].
    intros [= -> _]. exists response, rest. repeat split; try done. right. eauto.
  - intros [= -> _]. exists response, rest. repeat split; try done. by left.
Qed.

Lemma fetchMeets_listings_need_status_200_witness :
  exists response rest,
    upstream world_insert_fails_once = HttpResponds response :: rest
    /\ resp_status response = 200%Z
    /\ (resp_data response = BDocument (DObject (PArray [listing_pleasanton]))
        \/ exists text, resp_data response = BText text
                        /\ no_json text = Some (DObject (PArray [listing_pleasanton]))).
Proof.
  eapply (fetchMeets_listings_need_status_200 no_json world_insert_fails_once).
  reflexivity.
Defined.

(** ** The accounts of the loop *)

(** One turn of the loop: the meet is skipped, inserted, or its insert is
    rejected. *)
Lemma syncLoop_turn meet rest insertCount skippedCount w :
  exists insertCount' skippedCount' w1,
    syncLoop (meet :: rest) insertCount skippedCount w
    = syncLoop rest insertCount' skippedCount' w1
    /\ selects w1 = S (selects w)
    /\ requests w1 = requests w
    /\ upstream w1 = upstream w
    /\ (no_faults (select_faults w) -> no_faults (select_faults w1))
    /\ (no_faults (insert_faults w) -> no_faults (insert_faults w1))
    /\ ((insertCount' = insertCount /\ skippedCount' = S skippedCount
         /\ insert_attempts w1 = insert_attempts w
         /\ rows w1 = rows w /\ sleeps w1 = sleeps w)
        \/ (insertCount' = S insertCount /\ skippedCount' = skippedCount
            /\ insert_attempts w1 = S (insert_attempts w)
            /\ rows w1 = rows w ++ [without_external_id meet]
            /\ sleeps w1 = 500%Z :: sleeps w)
        \/ (insertCount' = insertCount /\ skippedCount' = skippedCount
            /\ insert_attempts w1 = S (insert_attempts w)
            /\ rows w1 = rows w /\ sleeps w1 = 500%Z :: sleeps w
            /\ ~ (no_faults (select_faults w) /\ no_faults (insert_faults w)))).
Proof.
  rewrite syncLoop_cons.
  unfold meetExists, mbind, io_bind, store_select, console, mret, io_ret.
  assert (forall faults, no_faults faults -> no_faults (tail faults)) as Htail
    by apply no_faults_tail.
  destruct (select_faults w) as [|[e|] faults] eqn:Hsel.
  1,3: rewrite select_found; fold (name_present (name meet) (rows w));
       destruct (name_present (name meet) (rows w)) eqn:Hpresent.
  1,3: eexists _, _, _; split; [reflexivity|];
       cbn [emit upstream select_faults insert_faults tail];
       repeat split; auto; try (intros H; by inversion H); left; by repeat split.
  all: unfold store_insert; cbn [emit insert_faults rows];
       fold (name_present (row_name (without_external_id meet)) (rows w));
       cbn [row_name without_external_id].
  all: destruct (insert_faults w) as [|[e'|] faults'] eqn:Hins.
  all: try rewrite Hpresent.
  all: try destruct (name_present (name meet) (rows w)) eqn:Hpresent'.
  all: eexists _, _, _; (split; [reflexivity|]);
       cbn [emit upstream select_faults insert_faults tail];
       repeat split; auto; try (intros H; by inversion H).
  all: try (right; left; by repeat split).
  all: right; right; repeat split; try done.
  all: intros [Hs Hi]; try (by inversion Hs); try (by inversion Hi).
Qed.

Lemma repeat_app_cons {X} (x : X) n l :
  repeat x n ++ x :: l = repeat x (S n) ++ l.
Proof. induction n as [|n IH]; [done|]. cbn [repeat app] in *. by rewrite IH. Qed.

(** Property X15.  The accounts of the loop of [syncMeets]: every meet is
    queried once and is then inserted, skipped, or rejected by the store; the
    two counters grow by the numbers of inserted and of skipped meets; the
    table grows by the inserted meets; and the loop sleeps 500 ms once for
    every insert it submits, not for a skipped meet. *)
Theorem syncLoop_accounts (meets : list Meet) : forall insertCount skippedCount w,
  exists inserted skipped failed w',
    syncLoop meets insertCount skippedCount w
    = (Ok ((insertCount + inserted)%nat, (skippedCount + skipped)%nat), w')
    /\ (inserted + skipped + failed)%nat = length meets
    /\ selects w' = (selects w + length meets)%nat
    /\ insert_attempts w' = (insert_attempts w + inserted + failed)%nat
    /\ length (rows w') = (length (rows w) + inserted)%nat
    /\ sleeps w' = repeat 500%Z (inserted + failed) ++ sleeps w
    /\ requests w' = requests w.
Proof.
  induction meets as [|meet rest IH]; intros i s w.
  - exists 0%nat, 0%nat, 0%nat, w. cbn [syncLoop length repeat app].
    rewrite !Nat.add_0_r. by repeat split.
  - destruct (syncLoop_turn meet rest i s w)
      as (i' & s' & w1 & -> & Hsel & Hreq & _ & _ & _ & Hcase).
    destruct (IH i' s' w1)
      as (inserted & skipped & failed & w' & -> & Hsum & Hsel' & Hatt & Hrows
          & Hsleeps & Hreq').
    destruct Hcase as [(-> & -> & Ha & Hr & Hs)
                      |[(-> & -> & Ha & Hr & Hs)|(-> & -> & Ha & Hr & Hs & _)]].
    + exists inserted, (S skipped), failed, w'.
      split_and!;
        try (rewrite ?Hsel', ?Hatt, ?Hrows, ?Hreq', ?Hsel, ?Hreq, ?Ha, ?Hr;
             cbn [length]; lia).
      * by rewrite Nat.add_succ_comm.
      * by rewrite Hsleeps, Hs.
    + exists (S inserted), skipped, failed, w'.
      split_and!;
        try (rewrite ?Hsel', ?Hatt, ?Hrows, ?Hreq', ?Hsel, ?Hreq, ?Ha, ?Hr,
               ?length_app; cbn [length]; lia).
      * by rewrite Nat.add_succ_comm.
      * rewrite Hsleeps, Hs. by rewrite repeat_app_cons.
    + exists inserted, skipped, (S failed), w'.
      split_and!; try done;
        try (rewrite ?Hsel', ?Hatt, ?Hrows, ?Hreq', ?Hsel, ?Hreq, ?Ha, ?Hr;
             cbn [length]; lia).
      rewrite Hsleeps, Hs.
        replace (inserted + S failed)%nat with (S (inserted + failed)) by lia.
        by rewrite repeat_app_cons.
Qed.

Lemma syncLoop_turn_healthy meet rest insertCount skippedCount w :
  no_faults (select_faults w) -> no_faults (insert_faults w) ->
  exists w1,
    no_faults (select_faults w1) /\ no_faults (insert_faults w1)
    /\ if name_present (name meet) (rows w)
       then syncLoop (meet :: rest) insertCount skippedCount w
            = syncLoop rest insertCount (S skippedCount) w1
            /\ rows w1 = rows w /\ insert_attempts w1 = insert_attempts w
       else syncLoop (meet :: rest) insertCount skippedCount w
            = syncLoop rest (S insertCount) skippedCount w1
            /\ rows w1 = rows w ++ [without_external_id meet]
            /\ insert_attempts w1 = S (insert_attempts w).
Proof.
  intros Hsel Hins. rewrite syncLoop_cons.
  unfold meetExists, mbind, io_bind, store_select, console, mret, io_ret.
  pose proof (no_faults_tail _ Hsel) as Hsel'.
  pose proof (no_faults_tail _ Hins) as Hins'.
  destruct (no_faults_head _ Hsel) as [Es|[faults Es]]; rewrite Es in *;
    rewrite select_found; fold (name_present (name meet) (rows w));
    destruct (name_present (name meet) (rows w)) eqn:Hpresent.
  1,3: eexists; split_and!; [| |reflexivity|reflexivity|reflexivity]; done.
  all: unfold store_insert; cbn [emit insert_faults rows];
       fold (name_present (row_name (without_external_id meet)) (rows w));
       cbn [row_name without_external_id]; rewrite Hpresent.
  all: destruct (no_faults_head _ Hins) as [Ei|[faults' Ei]]; rewrite Ei in *.
  all: eexists; split_and!; [| |reflexivity|reflexivity|reflexivity]; done.
Qed.

(** Property X16.  With a store that answers every query and rejects no
    insert for a reason of its own, the loop inserts, of every name the table
    does not hold yet, the first meet, and skips every other meet: no insert
    is submitted in vain, and of two listings with one name the second is
    skipped. *)
Theorem syncLoop_healthy_store (meets : list Meet) : forall insertCount skippedCount w,
  no_faults (select_faults w) -> no_faults (insert_faults w) ->
  let new := inserted_meets (rows w) meets in
  exists w',
    syncLoop meets insertCount skippedCount w
    = (Ok ((insertCount + length new)%nat,
           (skippedCount + (length meets - length new))%nat), w')
    /\ rows w' = rows w ++ new
    /\ insert_attempts w' = (insert_attempts w + length new)%nat
    /\ (length new <= length meets)%nat.
Proof.
  induction meets as [|meet rest IH]; intros i s w Hsel Hins new.
  - exists w. subst new. cbn [syncLoop inserted_meets length Nat.sub].
    rewrite !Nat.add_0_r, app_nil_r. by repeat split.
  - destruct (syncLoop_turn_healthy meet rest i s w Hsel Hins)
      as (w1 & Hsel1 & Hins1 & Hturn).
    subst new. cbn [inserted_meets].
    destruct (name_present (name meet) (rows w));
      destruct Hturn as (-> & Hrows1 & Hatt1).
    + destruct (IH i (S s) w1 Hsel1 Hins1) as (w' & -> & Hrows & Hatt & Hle).
      rewrite Hrows1 in *. exists w'. rewrite Hatt1 in Hatt.
      split_and!; try done; [|cbn [length]; lia].
      do 2 f_equal. f_equal. cbn [length]. lia.
    + destruct (IH (S i) s w1 Hsel1 Hins1) as (w' & -> & Hrows & Hatt & Hle).
      rewrite Hrows1 in *. exists w'. rewrite Hatt1 in Hatt.
      split_and!; cbn [length] in *; try lia.
      * do 2 f_equal. f_equal; lia.
      * by rewrite Hrows, <- app_assoc.
Qed.

Lemma syncLoop_healthy_store_witness :
  exists w',
    syncLoop (transformMeetsData [listing_pleasanton; listing_pleasanton]).2 0 0
      empty_world
    = (Ok (1%nat, 1%nat), w')
    /\ rows w' = [without_external_id (transformMeet listing_pleasanton).2]
    /\ insert_attempts w' = 1%nat
    /\ (1 <= 2)%nat.
Proof.
  apply (syncLoop_healthy_store
           (transformMeetsData [listing_pleasanton; listing_pleasanton]).2
           0 0 empty_world); constructor.
Defined.

(** The rows of the store after the loop: the rows before it, then rows that
    are meets of the loop without their [external_id]. *)
Lemma syncLoop_rows (meets : list Meet) : forall insertCount skippedCount w,
  exists new,
    rows (syncLoop meets insertCount skippedCount w).2 = rows w ++ new
    /\ Forall (fun row => exists meet, meet ∈ meets
                                       /\ row = without_external_id meet) new.
Proof.
  induction meets as [|meet rest IH]; intros i s w.
  - exists []. by rewrite app_nil_r.
  - destruct (syncLoop_turn meet rest i s w)
      as (i' & s' & w1 & -> & _ & _ & _ & _ & _ & Hcase).
    destruct (IH i' s' w1) as (new & -> & Hnew).
    assert (Forall (fun row => exists m, m ∈ meet :: rest
                                         /\ row = without_external_id m) new)
      as Hnew'.
    { eapply Forall_impl; [exact Hnew|]. intros row (m & Hm & ->).
      exists m. split; [by apply elem_of_cons; right|done]. }
    destruct Hcase as [(_ & _ & _ & -> & _)
                      |[(_ & _ & _ & -> & _)|(_ & _ & _ & -> & _)]].
    + by exists new.
    + exists (without_external_id meet :: new). rewrite <- app_assoc.
      split; [done|]. constructor; [|done].
      exists meet. split; [by apply elem_of_cons; left|done].
    + by exists new.
Qed.


(** ** What a run leaves in the store *)

Lemma console_all_world lines : forall w,
  exists w',
    console_all lines w = (Ok tt, w')
    /\ rows w' = rows w /\ upstream w' = upstream w
    /\ select_faults w' = select_faults w /\ insert_faults w' = insert_faults w
    /\ forall f : event -> bool,
         (forall line, f (Console line) = false) ->
         List.filter f (trace w') = List.filter f (trace w).
Proof.
  induction lines as [|line lines IH]; intros w.
  - exists w. by repeat split.
  - cbn [console_all]. unfold mbind, io_bind, console.
    destruct (IH (emit (Console line) w)) as (w' & -> & Hr & Hu & Hs & Hi & Hf).
    exists w'. repeat split; try done. intros f Hconsole.
    rewrite (Hf f Hconsole). cbn [emit trace List.filter]. by rewrite Hconsole.
Qed.

Lemma transformMeetsData_elem (l : list RawListing) (meet : Meet) :
  meet ∈ (transformMeetsData l).2 -> exists x, x ∈ l /\ meet = (transformMeet x).2.
Proof.
  unfold transformMeetsData. cbn [snd].
  rewrite list_elem_of_In, filter_In, in_map_iff.
  intros [(y & <- & Hy) _]. apply in_map_iff in Hy as (x & <- & Hx).
  exists x. split; [by apply list_elem_of_In|done].
Qed.

(** Property X17.  A run never removes or changes a row: the table after
    [syncMeets] is the table before it followed by new rows, each of them the
    record [transformMeet] builds for a listing, without its [external_id]. *)
Theorem syncMeets_only_adds_rows JSON_parse (w : World) :
  exists new,
    rows (syncMeets JSON_parse w).2 = rows w ++ new
    /\ Forall (fun row => exists x : RawListing,
                 row = without_external_id (transformMeet x).2) new.
Proof.
  destruct (fetchMeets_never_raises JSON_parse w) as (data & w1 & Hfetch).
  pose proof (fetchMeets_frame JSON_parse w) as Hframe.
  rewrite Hfetch in Hframe. cbn [snd] in Hframe.
  destruct Hframe as (_ & Hrows1 & _).
  unfold syncMeets, syncMeets_body.
  erewrite bind_ok by (by apply retry_first_attempt).
  destruct data as [|[|x l]].
  1,2: exists []; cbn [console emit rows snd]; by rewrite app_nil_r.
  destruct (transformMeetsData (x :: l)) as [diag meets] eqn:Htransform.
  unfold mbind, io_bind, console.
  destruct (console_all_world diag
              (emit (Console (LogFetched (length (x :: l)))) w1))
    as (w2 & -> & Hrows2 & _).
  destruct (syncLoop_rows meets 0 0
              (emit (Console (LogProcessed (length meets))) w2))
    as (new & Hrows3 & Hnew).
  destruct (syncLoop_returns meets 0 0
              (emit (Console (LogProcessed (length meets))) w2))
    as (counts & w3 & Hloop).
  rewrite Hloop in Hrows3 |- *. cbn [snd emit rows] in *.
  exists new. split; [by rewrite Hrows3, Hrows2, Hrows1|].
  eapply Forall_impl; [exact Hnew|]. intros row (meet & Hmeet & ->).
  assert (meet ∈ (transformMeetsData (x :: l)).2) as Hin
    by (by rewrite Htransform).
  apply transformMeetsData_elem in Hin as (y & _ & ->). by exists y.
Qed.

Lemma transformMeetsData_drops_all (l : list RawListing) :
  forallb (fun meet => negb (is_string (meet_subtitle meet))) l = true ->
  (transformMeetsData l).2 = [].
Proof.
  unfold transformMeetsData. cbn [snd].
  induction l as [|meet rest IH]; [done|].
  cbn [forallb map List.filter]. intros [Hmeet Hrest]%andb_true_iff.
  rewrite has_dates_is_string. apply negb_true_iff in Hmeet. rewrite Hmeet.
  by apply IH.
Qed.

(** Property X18.  When no listing of the answer has a string as subtitle,
    the run sends no query and no insert to the store and returns: it reports
    that there is no data for an empty answer, and zero meets otherwise. *)
Theorem syncMeets_without_dated_listing JSON_parse l rest w :
  upstream w = listing_response l :: rest ->
  forallb (fun meet => negb (is_string (meet_subtitle meet))) l = true ->
  exists w',
    syncMeets JSON_parse w = (Returned, w')
    /\ rows w' = rows w /\ selects w' = selects w
    /\ insert_attempts w' = insert_attempts w
    /\ head (trace w')
       = Some (Console (match l with
                        | [] => LogNoMeets
                        | _ :: _ => LogSyncCompleted 0 0 0
                        end)).
Proof.
  intros Hup Hall. unfold syncMeets.
  rewrite (syncMeets_of_listing JSON_parse l rest w Hup).
  destruct l as [|x l]; [eexists; by repeat split|].
  cbv zeta. rewrite (transformMeetsData_drops_all (x :: l) Hall).
  unfold mbind, io_bind, console.
  destruct (console_all_world (transformMeetsData (x :: l)).1
              (emit (Console (LogFetched (length (x :: l))))
                 (after_request (emit (Console LogFetching) w))))
    as (w2 & -> & Hrows & _ & _ & _ & Hfilter).
  cbn [length syncLoop mret io_ret].
  eexists. split; [reflexivity|]. cbn [emit rows trace head fst snd].
  split; [by rewrite Hrows|].
  unfold selects, insert_attempts. cbn [emit trace List.filter is_select is_insert].
  by rewrite !Hfilter.
Qed.

Lemma syncMeets_without_dated_listing_witness :
  exists w',
    syncMeets no_json
      (with_upstream
         [listing_response
            [{| meet_id := VNum 9; meet_name := VStr (js "Winter Open");
                meet_address := VStr (js "TBD"); meet_subtitle := VNull |}]]
         empty_world)
    = (Returned, w')
    /\ rows w' = [] /\ selects w' = 0%nat /\ insert_attempts w' = 0%nat
    /\ head (trace w') = Some (Console (LogSyncCompleted 0 0 0)).
Proof.
  apply (syncMeets_without_dated_listing no_json
           [{| meet_id := VNum 9; meet_name := VStr (js "Winter Open");
               meet_address := VStr (js "TBD"); meet_subtitle := VNull |}] []);
    reflexivity.
Defined.
